(** * Streaming top-k acquisition strategy ([energizer/strategies/base.py])

    A shallow embedding of [EnergizerStrategy] and the properties of its
    running top-k state.

    Modelling choices.
    - Scores are [float32] tensors in the source.  The strategy never does
      arithmetic on them: [torch.topk] only compares them and [reset] writes
      the constant [0.0].  A score is therefore an element of a total order
      with a zero, taken here to be [Z] (no NaN).
    - Index tensors are [int64]; the numbers stored in them are bounded by
      the length of the pool data set, so they are integers of [Z].
    - [torch.topk] returns the [k] largest entries in descending order.  The
      winner among equal scores is not specified by torch; the model keeps
      the entry met first (a stable selection).
    - The tensor of batch-local indices that [test_step] hands to
      [test_step_end] is an object that [_batch_to_pool] updates in place,
      so index tensors live in a store and are passed by location.  The
      tensors [self.values] and [self.indices] are owned by the strategy and
      only written through [copy_]; they are fields of the record. *)

From Stdlib Require Import ZArith String.
From stdpp Require Import base tactics option list sorting.

Local Open Scope Z_scope.

(** ** Exceptions and the state-and-error monad *)

Inductive exn : Type :=
  | NotImplementedError
  | RuntimeError (msg : string)
  | TypeError
  | IndexError
  | InvalidRef.   (* a location outside the store; not a Python error *)

Inductive outcome (A : Type) : Type :=
  | Ok (a : A)
  | Raise (e : exn).
Arguments Ok {A} a.
Arguments Raise {A} e.

(** ** Tensors *)

(** The output of [objective]: a tensor of any rank over the scores. *)
#[warnings="-register-all"]
Inductive tensor : Type :=
  | Elem (x : Z)
  | Stack (ts : list tensor).

(** [Tensor.flatten]. *)
Fixpoint flatten (t : tensor) : list Z :=
  match t with
  | Elem x => [x]
  | Stack ts => concat (flatten <$> ts)
  end.

(** A one-dimensional tensor. *)
Definition vector (l : list Z) : tensor := Stack (Elem <$> l).

(** ** [torch.topk] *)

Section StableSort.
Context {A : Type} (before : A -> A -> bool).

(** [insert_desc x l] puts [x] in front of the first entry it may stand
    before. *)
Fixpoint insert_desc (x : A) (l : list A) : list A :=
  match l with
  | [] => [x]
  | y :: l' => if before x y then x :: l else y :: insert_desc x l'
  end.

Definition sort_desc (l : list A) : list A := foldr insert_desc [] l.

Definition Before (x y : A) : Prop := before x y = true.
End StableSort.

(** Descending order on scores. *)
Definition geb (x y : Z) : bool := y <=? x.

(** Descending order on (score, position) pairs: only the score counts, so
    that sorting is stable in the position. *)
Definition score_geb {B : Type} (p q : Z * B) : bool := geb p.1 q.1.

(** Descending order on (score, index) pairs in which, among equal scores,
    the smaller index comes first. *)
Definition lex_geb (p q : Z * Z) : bool :=
  (q.1 <? p.1) || ((q.1 =? p.1) && (p.2 <=? q.2)).

(** Among equal scores, [p] has the smaller index. *)
Definition tie_le (p q : Z * Z) : Prop := p.1 = q.1 -> p.2 <= q.2.

(** The entries of [l] paired with their positions. *)
Definition enumerate {A : Type} (l : list A) : list (A * nat) :=
  zip l (seq 0 (length l)).

(** The [k] largest entries of [scores], largest first, and their positions. *)
Definition topk_select (scores : list Z) (k : nat) : list Z * list nat :=
  let ranked := take k (sort_desc score_geb (enumerate scores)) in
  (ranked.*1, ranked.*2).

(** [torch.topk(scores, k, dim=0)]: [k] must not exceed the length. *)
Definition topk (scores : list Z) (k : nat) : outcome (list Z * list nat) :=
  if bool_decide (k <= length scores)%nat
  then Ok (topk_select scores k)
  else Raise (RuntimeError "selected index k out of range").

(** [t[idx]] for an index tensor [idx] of non-negative positions. *)
Fixpoint gather (t : list Z) (idx : list nat) : outcome (list Z) :=
  match idx with
  | [] => Ok []
  | i :: idx' =>
      match t !! i with
      | None => Raise IndexError
      | Some x =>
          match gather t idx' with
          | Ok r => Ok (x :: r)
          | Raise e => Raise e
          end
      end
  end.

(** [dst.copy_(src)] on one-dimensional tensors: equal lengths, or a source
    of length one that is broadcast. *)
Definition copy_ (dst src : list Z) : outcome (list Z) :=
  if bool_decide (length src = length dst) then Ok src
  else match src with
       | [x] => Ok (replicate (length dst) x)
       | _ => Raise (RuntimeError "The size of tensor a must match the size of tensor b")
       end.

(** ** The strategy and its world *)

(** A strategy after [connect]: [query_size] is the size given to [connect],
    [pool_size] is what [self.trainer.datamodule.pool_size] answers.
    [_counter], [values] and [indices] are [None] until the first [reset]. *)
Record strategy : Type := Strategy {
  query_size : nat;
  pool_size : Z;
  _counter : option Z;
  values : option (list Z);
  indices : option (list Z);
}.

Definition loc : Type := nat.

(** The strategy together with the store of index tensors. *)
Record world : Type := World {
  self : strategy;
  heap : list (list Z);
}.

Definition M (A : Type) : Type := world -> world * outcome A.

Definition ret {A : Type} (a : A) : M A := fun w => (w, Ok a).

Definition bind {A B : Type} (m : M A) (k : A -> M B) : M B :=
  fun w =>
    match m w with
    | (w', Ok a) => k a w'
    | (w', Raise e) => (w', Raise e)
    end.

Definition raise {A : Type} (e : exn) : M A := fun w => (w, Raise e).

Definition lift {A : Type} (o : outcome A) : M A := fun w => (w, o).

Notation "x <- c1 ;; c2" := (bind c1 (fun x => c2))
  (at level 100, c1 at next level, right associativity).
Notation "c1 ;;; c2" := (bind c1 (fun _ => c2))
  (at level 100, right associativity).

Definition get_self : M strategy := fun w => (w, Ok (self w)).

Definition put_self (s : strategy) : M unit :=
  fun w => (World s (heap w), Ok tt).

(** Reading an attribute that is still [None] where a number or a tensor is
    needed. *)
Definition the {A : Type} (o : option A) : M A :=
  match o with
  | Some a => ret a
  | None => raise TypeError
  end.

Definition set_counter (c : Z) : M unit :=
  s <- get_self ;;
  put_self (Strategy (query_size s) (pool_size s) (Some c) (values s) (indices s)).

Definition set_values (v : list Z) : M unit :=
  s <- get_self ;;
  put_self (Strategy (query_size s) (pool_size s) (_counter s) (Some v) (indices s)).

Definition set_indices (i : list Z) : M unit :=
  s <- get_self ;;
  put_self (Strategy (query_size s) (pool_size s) (_counter s) (values s) (Some i)).

(** A new index tensor. *)
Definition alloc (t : list Z) : M loc :=
  fun w => (World (self w) (heap w ++ [t]), Ok (length (heap w))).

Definition deref (l : loc) : M (list Z) :=
  fun w =>
    match heap w !! l with
    | Some t => (w, Ok t)
    | None => (w, Raise InvalidRef)
    end.

(** [t += c] on the tensor at [l], in place. *)
Definition iadd (l : loc) (c : Z) : M unit :=
  fun w =>
    match heap w !! l with
    | Some t => (World (self w) (<[l := Z.add c <$> t]> (heap w)), Ok tt)
    | None => (w, Raise InvalidRef)
    end.

(** ** The running state as a list of (score, index) pairs

    What one batch hands to the merge, and what the merge keeps, written on
    pairs.  The methods below work on two parallel tensors; the lemmas
    relate the two. *)

(** The [min (length scores) q] best entries of a batch, with their positions
    shifted by the counter [c]. *)
Definition candidates (q : nat) (c : Z) (scores : list Z) : list (Z * Z) :=
  (fun p : Z * nat => (p.1, c + Z.of_nat p.2))
    <$> take (Nat.min (length scores) q) (sort_desc score_geb (enumerate scores)).

(** The [q] best pairs among the state and the candidates of a batch. *)
Definition merged (q : nat) (st cands : list (Z * Z)) : list (Z * Z) :=
  take q (sort_desc score_geb (st ++ cands)).

(** The scores of a part of the pool that starts at index [c], with their
    indices in the pool. *)
Definition indexed_from (c : Z) (scores : list Z) : list (Z * Z) :=
  (fun p : Z * nat => (p.1, c + Z.of_nat p.2)) <$> enumerate scores.

(** The state that [reset] writes. *)
Definition sentinels (q : nat) : list (Z * Z) := replicate q (0, -1).

(** The top [q] of a whole pool, sorted once: the scores of the pool with
    their positions in the pool. *)
Definition pool_topk (q : nat) (pool : list Z) : list Z * list Z :=
  let '(v, i) := topk_select pool (Nat.min (length pool) q) in (v, Z.of_nat <$> i).

(** ** The methods of [EnergizerStrategy] *)

(** [__init__] followed by [connect]. *)
Definition connect (pool : Z) (q : nat) : strategy :=
  Strategy q pool None None None.

Definition reset : M unit :=
  s <- get_self ;;
  put_self (Strategy (query_size s) (pool_size s) (Some 0)
              (Some (replicate (query_size s) 0))
              (Some (replicate (query_size s) (-1)))).

Definition optimize_objective (scores : list Z) : M (list Z * list nat) :=
  s <- get_self ;;
  let query_size := Nat.min (length scores) (query_size s) in
  lift (topk scores query_size).

Definition overflow_message : string :=
  "Strategy states must be reset at the end of each labelling iteration.".

Definition _batch_to_pool (indices : loc) (batch_size : Z) : M loc :=
  s <- get_self ;;
  c <- the (_counter s) ;;
  iadd indices c ;;;
  set_counter (c + batch_size) ;;;
  s <- get_self ;;
  c <- the (_counter s) ;;
  if bool_decide (pool_size s < c)
  then raise (RuntimeError overflow_message)
  else ret indices.

Definition test_step_end (outputs : list Z * loc * Z) : M unit :=
  let '(values_b, indices_b, batch_size) := outputs in
  indices_b <- _batch_to_pool indices_b batch_size ;;
  s <- get_self ;;
  self_values <- the (values s) ;;
  let all_values := self_values ++ values_b in
  self_indices <- the (indices s) ;;
  batch_indices <- deref indices_b ;;
  let all_indices := self_indices ++ batch_indices in
  selected <- optimize_objective all_values ;;
  let '(new_values, idx) := selected in
  v <- lift (copy_ self_values new_values) ;;
  set_values v ;;;
  picked <- lift (gather all_indices idx) ;;
  i <- lift (copy_ self_indices picked) ;;
  set_indices i.

(** The default hooks. *)
Definition on_before_objective {Logits : Type} (logits : Logits) : Logits := logits.

Definition objective {Logits : Type} (logits : Logits) : outcome tensor :=
  Raise NotImplementedError.

Definition on_after_objective (scores : tensor) : list Z := flatten scores.

Section Pipeline.
(** What a concrete strategy supplies: the forward pass of the inference
    module, the leading dimension of its output, and the acquisition
    function that overrides [objective]. *)
Context {Batch Logits : Type}.
Variable forward : Batch -> Logits.
Variable shape0 : Logits -> nat.
Variable objective' : Logits -> outcome tensor.

Definition test_step (batch : Batch) : M (list Z * loc * Z) :=
  let logits := forward batch in
  let logits := on_before_objective logits in
  scores <- lift (objective' logits) ;;
  let scores := on_after_objective scores in
  selected <- optimize_objective scores ;;
  let '(values_b, indices_b) := selected in
  indices_b <- alloc (Z.of_nat <$> indices_b) ;;
  ret (values_b, indices_b, Z.of_nat (shape0 logits)).

(** One iteration of the pool loop: the evaluation loop calls [test_step]
    and hands its result to [test_step_end]. *)
Definition pool_step (batch : Batch) : M unit :=
  outputs <- test_step batch ;;
  test_step_end outputs.

Fixpoint pool_batches (batches : list Batch) : M unit :=
  match batches with
  | [] => ret tt
  | b :: bs => pool_step b ;;; pool_batches bs
  end.

(** A labelling round: [reset], then every batch of the pool. *)
Definition pool_round (batches : list Batch) : M unit :=
  reset ;;; pool_batches batches.

(** The scores and the size that [test_step] derives from a batch. *)
Definition batch_scores (batch : Batch) : list Z :=
  match objective' (on_before_objective (forward batch)) with
  | Ok raw => on_after_objective raw
  | Raise _ => []
  end.

Definition batch_size (batch : Batch) : Z :=
  Z.of_nat (shape0 (on_before_objective (forward batch))).

(** The acquisition function answers on this batch. *)
Definition scorable (batch : Batch) : Prop :=
  exists raw, objective' (on_before_objective (forward batch)) = Ok raw.

(** The acquisition function answers on this batch with one score for each
    example. *)
Definition one_score_per_example (batch : Batch) : Prop :=
  exists raw,
    objective' (on_before_objective (forward batch)) = Ok raw /\
    length (on_after_objective raw) = shape0 (on_before_objective (forward batch)).

(** The number of examples and the scores of a list of batches. *)
Definition total_size (batches : list Batch) : Z :=
  foldr Z.add 0 (batch_size <$> batches).

Definition pool_scores (batches : list Batch) : list Z :=
  concat (batch_scores <$> batches).

(** The counter and the pairs of the state after the batches, from the
    counter [c] and the pairs [st]. *)
Fixpoint merge_batches (q : nat) (c : Z) (st : list (Z * Z))
    (batches : list Batch) : Z * list (Z * Z) :=
  match batches with
  | [] => (c, st)
  | b :: bs =>
      merge_batches q (c + batch_size b)
        (merged q st (candidates q c (batch_scores b))) bs
  end.
End Pipeline.

(** ** A concrete strategy

    The smallest subclass that overrides [objective]: a batch is the list of
    the scores of its examples, the forward pass hands them on and the
    acquisition function returns them as a vector, one score per example. *)
Module ScoreStrategy.
Definition forward (batch : list Z) : list Z := batch.
Definition shape0 (logits : list Z) : nat := length logits.
Definition objective (logits : list Z) : outcome tensor := Ok (vector logits).

(** A strategy connected to a pool of [pool] examples with query size [q],
    and no tensor allocated yet. *)
Definition fresh (pool : Z) (q : nat) : world := World (connect pool q) [].

(** The strategy after a labelling round over [batches]. *)
Definition round (pool : Z) (q : nat) (batches : list (list Z)) : world * outcome unit :=
  pool_round forward shape0 objective batches (fresh pool q).
End ScoreStrategy.

(** The (score, index) pairs that the state of a world holds. *)
Definition state_pairs (w : world) : list (Z * Z) :=
  zip (default [] (values (self w))) (default [] (indices (self w))).

(** A strategy in use: [reset] has been called, so the counter and the two
    tensors of the state are set, the counter is not negative and both
    tensors have [query_size] entries. *)
Definition ready (w : world) : Prop :=
  exists c vals idxs,
    _counter (self w) = Some c /\ 0 <= c /\
    values (self w) = Some vals /\ indices (self w) = Some idxs /\
    length vals = query_size (self w) /\ length idxs = query_size (self w).

(** * Properties *)

(** ** Insertion sort and the [k] first entries *)

Section StableSortFacts.
Context {A : Type} (before : A -> A -> bool).

#[local] Abbreviation Before := (Before before).

Lemma insert_desc_Permutation x l : insert_desc before x l ≡ₚ x :: l.
Proof.
  induction l as [|y l IH]; simpl; [done|].
  destruct (before x y); [done|].
  rewrite IH. apply Permutation_swap.
Qed.

Lemma sort_desc_Permutation l : sort_desc before l ≡ₚ l.
Proof.
  induction l as [|x l IH]; simpl; [done|].
  by rewrite insert_desc_Permutation, IH.
Qed.

Lemma length_sort_desc l : length (sort_desc before l) = length l.
Proof. by rewrite sort_desc_Permutation. Qed.

Lemma sort_desc_app l1 l2 :
  sort_desc before (l1 ++ l2) = foldr (insert_desc before) (sort_desc before l2) l1.
Proof. unfold sort_desc. by rewrite foldr_app. Qed.

(** Only the [k] first entries of [l] decide the [k] first entries after an
    insertion. *)
Lemma take_insert_desc k x l :
  take k (insert_desc before x l) = take k (insert_desc before x (take k l)).
Proof.
  revert k. induction l as [|y l IH]; intros [|k]; simpl; try done.
  destruct (before x y); simpl.
  - f_equal. change (y :: take k l) with (take (S k) (y :: l)).
    rewrite take_take. f_equal. lia.
  - by rewrite IH.
Qed.

Lemma take_foldr_insert_desc k l0 l :
  take k (foldr (insert_desc before) l0 l)
  = take k (foldr (insert_desc before) (take k l0) l).
Proof.
  induction l as [|x l IH]; simpl.
  - by rewrite take_take, Nat.min_id.
  - rewrite take_insert_desc, IH. by rewrite <- take_insert_desc.
Qed.

Lemma Sorted_take_desc k l : Sorted Before l -> Sorted Before (take k l).
Proof.
  intros Hl. revert k. induction Hl as [|x l Hl IH Hd]; intros [|k]; simpl;
    try by constructor.
  constructor; [apply IH|].
  destruct Hd; destruct k; simpl; by constructor.
Qed.

Lemma sort_desc_Sorted_id l : Sorted Before l -> sort_desc before l = l.
Proof.
  induction 1 as [|x l Hl IH Hd]; [done|].
  change (sort_desc before (x :: l))
    with (insert_desc before x (sort_desc before l)).
  rewrite IH.
  destruct Hd as [|y l Hxy]; simpl; [done|].
  unfold Before in Hxy. by rewrite Hxy.
Qed.

Hypothesis before_total : forall x y, before x y = true \/ before y x = true.

Lemma insert_desc_Sorted x l :
  Sorted Before l -> Sorted Before (insert_desc before x l).
Proof.
  induction 1 as [|y l Hl IH Hd]; simpl.
  - by repeat constructor.
  - destruct (before x y) eqn:Hxy.
    + repeat constructor; done.
    + assert (Before y x) by (destruct (before_total x y); [congruence|done]).
      constructor; [done|].
      destruct Hd as [|z l Hyz]; simpl; [by constructor|].
      destruct (before x z); by constructor.
Qed.

Lemma sort_desc_Sorted l : Sorted Before (sort_desc before l).
Proof.
  induction l as [|x l IH]; simpl; [constructor|].
  by apply insert_desc_Sorted.
Qed.

Hypothesis before_trans :
  forall x y z, before x y = true -> before y z = true -> before x z = true.
Hypothesis before_antisym :
  forall x y, before x y = true -> before y x = true -> x = y.

(** For an order, the sorted list depends only on the entries. *)
Lemma sort_desc_perm l1 l2 :
  l1 ≡ₚ l2 -> sort_desc before l1 = sort_desc before l2.
Proof.
  intros Hp.
  assert (Transitive Before) by (intros x y z; apply before_trans).
  assert (AntiSymm (=) Before) by (intros x y; apply before_antisym).
  apply (Sorted_unique Before); try apply sort_desc_Sorted.
  by rewrite !sort_desc_Permutation.
Qed.

(** The [k] first entries of a sorted concatenation do not change when one
    side is cut down to its own [k] first entries. *)
Lemma top_absorb_r k l1 l2 :
  take k (sort_desc before (l1 ++ take k (sort_desc before l2)))
  = take k (sort_desc before (l1 ++ l2)).
Proof.
  rewrite !sort_desc_app.
  rewrite (sort_desc_Sorted_id (take k _))
    by apply Sorted_take_desc, sort_desc_Sorted.
  by rewrite <- take_foldr_insert_desc.
Qed.

Lemma top_absorb_l k l1 l2 :
  take k (sort_desc before (take k (sort_desc before l1) ++ l2))
  = take k (sort_desc before (l1 ++ l2)).
Proof.
  rewrite (sort_desc_perm (_ ++ l2) (l2 ++ take k (sort_desc before l1)))
    by apply Permutation_app_comm.
  rewrite top_absorb_r.
  f_equal. apply sort_desc_perm, Permutation_app_comm.
Qed.
End StableSortFacts.

(** ** The order on scores *)

Lemma geb_total x y : geb x y = true \/ geb y x = true.
Proof. unfold geb. lia. Qed.

Lemma geb_trans x y z : geb x y = true -> geb y z = true -> geb x z = true.
Proof. unfold geb. lia. Qed.

Lemma geb_antisym x y : geb x y = true -> geb y x = true -> x = y.
Proof. unfold geb. lia. Qed.

Lemma score_geb_total {B} (p q : Z * B) :
  score_geb p q = true \/ score_geb q p = true.
Proof. apply geb_total. Qed.

(** Sorting commutes with a map that respects the order. *)
Lemma fmap_insert_desc {A B} (f : A -> B) before before' x l :
  (forall a b, before' (f a) (f b) = before a b) ->
  f <$> insert_desc before x l = insert_desc before' (f x) (f <$> l).
Proof.
  intros Hf. induction l as [|y l IH]; simpl; [done|].
  rewrite Hf. destruct (before x y); [done|]. rewrite fmap_cons. f_equal. apply IH.
Qed.

Lemma fmap_sort_desc {A B} (f : A -> B) before before' l :
  (forall a b, before' (f a) (f b) = before a b) ->
  f <$> sort_desc before l = sort_desc before' (f <$> l).
Proof.
  intros Hf. induction l as [|x l IH]; simpl; [done|].
  change (sort_desc before (x :: l)) with (insert_desc before x (sort_desc before l)).
  change (sort_desc before' (f x :: (f <$> l)))
    with (insert_desc before' (f x) (sort_desc before' (f <$> l))).
  by rewrite (fmap_insert_desc f before before'), IH.
Qed.

Lemma fst_sort_desc {B} (l : list (Z * B)) :
  (sort_desc score_geb l).*1 = sort_desc geb l.*1.
Proof. by apply fmap_sort_desc. Qed.

Lemma take_min_length {A} (l : list A) k : take (Nat.min (length l) k) l = take k l.
Proof.
  destruct (decide (k <= length l)%nat).
  - by rewrite Nat.min_r.
  - rewrite Nat.min_l, !take_ge by lia. done.
Qed.

(** ** [topk_select] *)

Lemma fst_enumerate {A} (l : list A) : (enumerate l).*1 = l.
Proof. unfold enumerate. apply fst_zip. by rewrite length_seq. Qed.

Lemma length_enumerate {A} (l : list A) : length (enumerate l) = length l.
Proof. unfold enumerate. rewrite length_zip, length_seq. lia. Qed.

Lemma elem_of_enumerate {A} (l : list A) x i :
  (x, i) ∈ enumerate l <-> l !! i = Some x.
Proof.
  unfold enumerate. rewrite list_elem_of_lookup. split.
  - intros [j Hj]. apply lookup_zip_with_Some in Hj as (a & b & [= -> ->] & Ha & Hb).
    apply lookup_seq in Hb as [-> _]. done.
  - intros Hi. exists i. apply lookup_zip_with_Some. exists x, i.
    split_and!; [done..|]. apply lookup_seq. split; [done|].
    by apply lookup_lt_Some in Hi.
Qed.

Lemma topk_select_values scores k :
  (topk_select scores k).1 = take k (sort_desc geb scores).
Proof.
  unfold topk_select. simpl.
  by rewrite fmap_take, fst_sort_desc, fst_enumerate.
Qed.

Lemma topk_select_length_1 scores k :
  length (topk_select scores k).1 = Nat.min k (length scores).
Proof.
  unfold topk_select. simpl.
  by rewrite length_fmap, length_take, length_sort_desc, length_enumerate.
Qed.

Lemma topk_select_length_2 scores k :
  length (topk_select scores k).2 = Nat.min k (length scores).
Proof.
  unfold topk_select. simpl.
  by rewrite length_fmap, length_take, length_sort_desc, length_enumerate.
Qed.

(** Every selected pair is an entry of the input at its position. *)
Lemma topk_select_lookup scores k j v i :
  (topk_select scores k).1 !! j = Some v ->
  (topk_select scores k).2 !! j = Some i ->
  scores !! i = Some v.
Proof.
  unfold topk_select. simpl. rewrite !list_lookup_fmap.
  destruct (take k _ !! j) as [[v' i']|] eqn:Hj; simpl; [|done].
  intros [= ->] [= ->]. apply elem_of_enumerate.
  rewrite <- (sort_desc_Permutation score_geb).
  eapply list_elem_of_lookup_2, lookup_take_Some, Hj.
Qed.

(** ** [gather] after [topk_select] *)

Lemma gather_fmap t (idx : list nat) :
  Forall (fun i => (i < length t)%nat) idx ->
  gather t idx = Ok ((fun i => default 0 (t !! i)) <$> idx).
Proof.
  induction 1 as [|i idx Hi _ IH]; simpl; [done|].
  apply lookup_lt_is_Some in Hi as [x Hx]. by rewrite Hx, IH.
Qed.

Lemma fmap_lookup_seq (t : list Z) :
  (fun i => default 0 (t !! i)) <$> seq 0 (length t) = t.
Proof.
  apply list_eq. intros i. rewrite list_lookup_fmap.
  destruct (decide (i < length t)%nat) as [Hi|Hi].
  - rewrite lookup_seq_lt by done. simpl.
    apply lookup_lt_is_Some in Hi as [x Hx]. by rewrite Hx.
  - rewrite lookup_seq_ge, lookup_ge_None_2 by lia. done.
Qed.

(** Selecting positions and gathering a parallel tensor [t] is sorting the
    pairs of scores and entries of [t]. *)
Lemma topk_select_zip v t k :
  length v = length t ->
  (topk_select v k).1 = (take k (sort_desc score_geb (zip v t))).*1 /\
  gather t (topk_select v k).2 = Ok (take k (sort_desc score_geb (zip v t))).*2.
Proof.
  intros Hlen.
  set (g := fun p : Z * nat => (p.1, default 0 (t !! p.2))).
  assert (Hzip : zip v t = g <$> enumerate v).
  { unfold enumerate, g. rewrite Hlen.
    rewrite <- (fmap_lookup_seq t) at 1.
    generalize (seq 0 (length t)). clear Hlen.
    induction v as [|x v IH]; intros [|i s]; simpl; [done..|]. by rewrite IH. }
  assert (Hsort : sort_desc score_geb (zip v t)
                  = g <$> sort_desc score_geb (enumerate v)).
  { rewrite Hzip. symmetry. by apply fmap_sort_desc. }
  unfold topk_select. simpl. rewrite Hsort, <- fmap_take.
  split.
  - rewrite <- !list_fmap_compose. done.
  - rewrite gather_fmap.
    + rewrite <- !list_fmap_compose. done.
    + apply Forall_fmap, Forall_forall. intros [x i] Hin. simpl.
      apply (subseteq_take k) in Hin.
      rewrite (sort_desc_Permutation score_geb) in Hin.
      apply elem_of_enumerate, lookup_lt_Some in Hin. lia.
Qed.

(** ** The methods, one call at a time *)

Lemma optimize_objective_eq scores w :
  optimize_objective scores w
  = (w, Ok (topk_select scores (Nat.min (length scores) (query_size (self w))))).
Proof.
  unfold optimize_objective, bind, get_self, lift, topk.
  rewrite bool_decide_true by lia. done.
Qed.

Lemma reset_eq w :
  reset w
  = (World (Strategy (query_size (self w)) (pool_size (self w)) (Some 0)
              (Some (replicate (query_size (self w)) 0))
              (Some (replicate (query_size (self w)) (-1))))
       (heap w), Ok tt).
Proof. done. Qed.

Lemma _batch_to_pool_eq w l t c n :
  _counter (self w) = Some c ->
  heap w !! l = Some t ->
  _batch_to_pool l n w
  = (World (Strategy (query_size (self w)) (pool_size (self w)) (Some (c + n))
              (values (self w)) (indices (self w)))
       (<[l := Z.add c <$> t]> (heap w)),
     if bool_decide (pool_size (self w) < c + n)
     then Raise (RuntimeError overflow_message) else Ok l).
Proof.
  intros Hc Hl. destruct w as [s h]. simpl in *.
  unfold _batch_to_pool, bind, get_self, iadd, set_counter, put_self. simpl.
  rewrite Hc. simpl. rewrite Hl. simpl.
  by destruct (bool_decide (pool_size s < c + n)).
Qed.

Lemma zip_fst_snd_fmap {A B C} (f : B -> C) (l : list (A * B)) :
  zip l.*1 (f <$> l.*2) = (fun p => (p.1, f p.2)) <$> l.
Proof. induction l as [|[a b] l IH]; csimpl; [done|]. by rewrite IH. Qed.

Lemma zip_candidates q c scores :
  zip (topk_select scores (Nat.min (length scores) q)).1
    (Z.add c <$> (Z.of_nat <$> (topk_select scores (Nat.min (length scores) q)).2))
  = candidates q c scores.
Proof.
  unfold topk_select, candidates. simpl.
  rewrite <- list_fmap_compose.
  apply (zip_fst_snd_fmap (fun i => c + Z.of_nat i)).
Qed.

Lemma length_merged q st cands :
  length st = q -> length (merged q st cands) = q.
Proof.
  intros Hq. unfold merged.
  rewrite length_take, length_sort_desc, length_app. lia.
Qed.

Lemma test_step_end_eq w q pool c st vb l ib n :
  self w = Strategy q pool (Some c) (Some st.*1) (Some st.*2) ->
  length st = q ->
  heap w !! l = Some ib ->
  length vb = length ib ->
  test_step_end (vb, l, n) w
  = let h' := <[l := Z.add c <$> ib]> (heap w) in
    let m := merged q st (zip vb (Z.add c <$> ib)) in
    if bool_decide (pool < c + n)
    then (World (Strategy q pool (Some (c + n)) (Some st.*1) (Some st.*2)) h',
          Raise (RuntimeError overflow_message))
    else (World (Strategy q pool (Some (c + n)) (Some m.*1) (Some m.*2)) h',
          Ok tt).
Proof.
  intros Hs Hq Hl Hlen. destruct w as [s h]. simpl in *. subst s q.
  unfold test_step_end, bind.
  rewrite (_batch_to_pool_eq _ l ib c n) by done. simpl.
  destruct (bool_decide (pool < c + n)); [done|].
  unfold deref. simpl.
  rewrite list_lookup_insert_eq by (by eapply lookup_lt_Some).
  unfold topk. rewrite bool_decide_true by lia. cbn [self query_size].
  set (all_values := st.*1 ++ vb).
  set (all_indices := st.*2 ++ (Z.add c <$> ib)).
  assert (Hall : length all_values = length all_indices).
  { unfold all_values, all_indices. rewrite !length_app, !length_fmap. lia. }
  assert (Hk : Nat.min (length all_values) (length st) = length st).
  { unfold all_values. rewrite length_app, length_fmap. lia. }
  rewrite Hk.
  destruct (topk_select_zip all_values all_indices (length st) Hall) as [Hv Hi].
  assert (Hzip : zip all_values all_indices = st ++ zip vb (Z.add c <$> ib)).
  { unfold all_values, all_indices.
    rewrite zip_with_app by (by rewrite !length_fmap).
    by rewrite zip_fst_snd. }
  rewrite Hzip in Hv, Hi. fold (merged (length st) st (zip vb (Z.add c <$> ib))) in Hv, Hi.
  destruct (topk_select all_values (length st)) as [new_values idx]. simpl in *.
  subst new_values. unfold copy_.
  rewrite bool_decide_true by (by rewrite !length_fmap, length_merged).
  rewrite Hi.
  rewrite bool_decide_true by (by rewrite !length_fmap, length_merged).
  done.
Qed.

Section PipelineFacts.
Context {Batch Logits : Type}.
Variable forward : Batch -> Logits.
Variable shape0 : Logits -> nat.
Variable objective' : Logits -> outcome tensor.

#[local] Abbreviation test_step := (test_step forward shape0 objective').
#[local] Abbreviation pool_step := (pool_step forward shape0 objective').
#[local] Abbreviation pool_batches := (pool_batches forward shape0 objective').
#[local] Abbreviation pool_round := (pool_round forward shape0 objective').
#[local] Abbreviation batch_scores := (batch_scores forward objective').
#[local] Abbreviation batch_size := (batch_size forward shape0).
#[local] Abbreviation scorable := (scorable forward objective').
#[local] Abbreviation merge_batches := (merge_batches forward shape0 objective').
#[local] Abbreviation total_size := (total_size forward shape0).
#[local] Abbreviation pool_scores := (pool_scores forward objective').

Lemma test_step_eq b w :
  scorable b ->
  test_step b w
  = let sel := topk_select (batch_scores b)
                 (Nat.min (length (batch_scores b)) (query_size (self w))) in
    (World (self w) (heap w ++ [Z.of_nat <$> sel.2]),
     Ok (sel.1, length (heap w), batch_size b)).
Proof.
  intros [raw Hraw]. unfold test_step, batch_scores, batch_size, bind, lift.
  rewrite Hraw. rewrite optimize_objective_eq.
  by destruct (topk_select _ _).
Qed.

Lemma test_step_raise b w e :
  objective' (on_before_objective (forward b)) = Raise e ->
  test_step b w = (w, Raise e).
Proof. intros He. unfold test_step, bind, lift. by rewrite He. Qed.

(** One iteration of the pool loop on a state written as pairs. *)
Lemma pool_step_eq b w q pool c st :
  self w = Strategy q pool (Some c) (Some st.*1) (Some st.*2) ->
  length st = q ->
  scorable b ->
  pool_step b w
  = let cands := candidates q c (batch_scores b) in
    let h' := heap w ++ [cands.*2] in
    let m := merged q st cands in
    if bool_decide (pool < c + batch_size b)
    then (World (Strategy q pool (Some (c + batch_size b)) (Some st.*1) (Some st.*2)) h',
          Raise (RuntimeError overflow_message))
    else (World (Strategy q pool (Some (c + batch_size b)) (Some m.*1) (Some m.*2)) h',
          Ok tt).
Proof.
  intros Hs Hq Hb. unfold pool_step, bind. rewrite test_step_eq by done.
  rewrite Hs. cbn [query_size].
  set (sel := topk_select _ _).
  pose proof (zip_candidates q c (batch_scores b)) as Hc. fold sel in Hc.
  cbn zeta.
  rewrite (test_step_end_eq _ q pool c st sel.1 _ (Z.of_nat <$> sel.2)); try done.
  - cbn [heap]. rewrite Hc.
    replace (<[length (heap w):=_]> _) with (heap w ++ [(candidates q c (batch_scores b)).*2]).
    + done.
    + rewrite <- (Nat.add_0_r (length (heap w))), insert_app_r. simpl.
      rewrite <- Hc. rewrite snd_zip; [done|].
      unfold sel. rewrite !length_fmap, topk_select_length_1, topk_select_length_2. done.
  - cbn [heap]. by rewrite lookup_app_r, Nat.sub_diag by lia.
  - unfold sel. by rewrite length_fmap, topk_select_length_1, topk_select_length_2.
Qed.

Lemma batch_size_nonneg b : 0 <= batch_size b.
Proof. unfold batch_size. lia. Qed.

Lemma total_size_nonneg bs : 0 <= total_size bs.
Proof.
  induction bs as [|b bs IH]; [done|].
  unfold total_size in *. csimpl. pose proof (batch_size_nonneg b). lia.
Qed.

Lemma total_size_cons b bs : total_size (b :: bs) = batch_size b + total_size bs.
Proof. done. Qed.

Lemma total_size_app bs1 bs2 :
  total_size (bs1 ++ bs2) = total_size bs1 + total_size bs2.
Proof.
  induction bs1 as [|b bs1 IH]; [done|].
  rewrite <- app_comm_cons, !total_size_cons, IH. lia.
Qed.

Lemma total_size_perm bs1 bs2 : bs1 ≡ₚ bs2 -> total_size bs1 = total_size bs2.
Proof.
  induction 1 as [|b l1 l2 _ IH|a b l|l1 l2 l3 _ IH1 _ IH2];
    rewrite ?total_size_cons in *; [done|lia|lia|congruence].
Qed.

Lemma pool_scores_cons b bs : pool_scores (b :: bs) = batch_scores b ++ pool_scores bs.
Proof. done. Qed.

Lemma pool_scores_perm bs1 bs2 : bs1 ≡ₚ bs2 -> pool_scores bs1 ≡ₚ pool_scores bs2.
Proof.
  induction 1 as [|b l1 l2 _ IH|a b l|l1 l2 l3 _ IH1 _ IH2];
    rewrite ?pool_scores_cons in *; [done| |apply Permutation_app_swap_app|].
  - by apply Permutation_app_head.
  - by etrans.
Qed.

Lemma pool_batches_app bs1 bs2 w :
  pool_batches (bs1 ++ bs2) w
  = match pool_batches bs1 w with
    | (w', Ok _) => pool_batches bs2 w'
    | (w', Raise e) => (w', Raise e)
    end.
Proof.
  revert w. induction bs1 as [|b bs1 IH]; intros w; [done|].
  rewrite <- app_comm_cons. simpl. unfold bind.
  destruct (pool_step b w) as [w1 [[]|e]]; [apply IH|done].
Qed.

Lemma merge_batches_app q c st bs1 bs2 :
  merge_batches q c st (bs1 ++ bs2)
  = merge_batches q (merge_batches q c st bs1).1 (merge_batches q c st bs1).2 bs2.
Proof. revert c st. induction bs1 as [|b bs1 IH]; intros c st; [done|]. apply IH. Qed.

Lemma merge_batches_counter q c st bs :
  (merge_batches q c st bs).1 = c + total_size bs.
Proof.
  revert c st. induction bs as [|b bs IH]; intros c st; simpl.
  - unfold total_size. simpl. lia.
  - rewrite IH, total_size_cons. lia.
Qed.

Lemma merge_batches_length q c st bs :
  length st = q -> length (merge_batches q c st bs).2 = q.
Proof.
  revert c st. induction bs as [|b bs IH]; intros c st Hq; [done|].
  simpl. by apply IH, length_merged.
Qed.

(** The batches of a round that stays within the pool: the loop ends
    normally in the state computed on pairs. *)
Lemma pool_batches_eq bs w q pool c st :
  self w = Strategy q pool (Some c) (Some st.*1) (Some st.*2) ->
  length st = q ->
  Forall scorable bs ->
  c + total_size bs <= pool ->
  exists h,
    pool_batches bs w
    = (World (Strategy q pool (Some (merge_batches q c st bs).1)
                (Some (merge_batches q c st bs).2.*1)
                (Some (merge_batches q c st bs).2.*2)) h, Ok tt).
Proof.
  revert w c st. induction bs as [|b bs IH]; intros w c st Hs Hq Hbs Hsum.
  - exists (heap w). simpl. unfold ret. destruct w; simpl in *; by subst.
  - apply Forall_cons in Hbs as [Hb Hbs]. rewrite total_size_cons in Hsum.
    pose proof (total_size_nonneg bs).
    simpl. unfold bind. rewrite (pool_step_eq b w q pool c st) by done.
    cbn zeta. rewrite bool_decide_false by lia.
    apply IH; [done|by apply length_merged|done|lia].
Qed.

(** The batch that takes the counter beyond the pool size raises. *)
Lemma pool_step_overflow b w q pool c st :
  self w = Strategy q pool (Some c) (Some st.*1) (Some st.*2) ->
  length st = q ->
  scorable b ->
  pool < c + batch_size b ->
  exists h,
    pool_step b w
    = (World (Strategy q pool (Some (c + batch_size b)) (Some st.*1) (Some st.*2)) h,
       Raise (RuntimeError overflow_message)).
Proof.
  intros Hs Hq Hb Hover. rewrite (pool_step_eq b w q pool c st) by done.
  cbn zeta. rewrite bool_decide_true by lia. eauto.
Qed.

(** The scores of the state are the best of the zeros of [reset] and of
    all the scores met. *)
Lemma merged_values q st cands :
  (merged q st cands).*1 = take q (sort_desc geb (st.*1 ++ cands.*1)).
Proof. unfold merged. by rewrite fmap_take, fst_sort_desc, fmap_app. Qed.

Lemma candidates_values q c scores :
  (candidates q c scores).*1 = take q (sort_desc geb scores).
Proof.
  unfold candidates. rewrite <- list_fmap_compose.
  change (fst ∘ _) with (@fst Z nat).
  rewrite fmap_take, fst_sort_desc, fst_enumerate.
  rewrite <- (length_sort_desc geb scores). apply take_min_length.
Qed.

Lemma merge_batches_values q c st bs seen :
  st.*1 = take q (sort_desc geb seen) ->
  (merge_batches q c st bs).2.*1
  = take q (sort_desc geb (seen ++ pool_scores bs)).
Proof.
  revert c st seen. induction bs as [|b bs IH]; intros c st seen Hst.
  - simpl. unfold pool_scores. simpl. by rewrite app_nil_r.
  - simpl. rewrite pool_scores_cons, app_assoc. apply IH.
    rewrite merged_values, candidates_values, Hst.
    rewrite (top_absorb_r geb geb_total).
    by rewrite (top_absorb_l geb geb_total geb_trans geb_antisym).
Qed.

Lemma sentinels_values q : (sentinels q).*1 = take q (sort_desc geb (replicate q 0)).
Proof.
  unfold sentinels. rewrite fmap_replicate. simpl.
  rewrite sort_desc_Sorted_id.
  - by rewrite take_replicate, Nat.min_id.
  - induction q as [|q IH]; simpl; [constructor|].
    constructor; [done|]. destruct q; by constructor.
Qed.

Lemma sentinels_indices q : (sentinels q).*2 = replicate q (-1).
Proof. unfold sentinels. by rewrite fmap_replicate. Qed.

Lemma length_sentinels q : length (sentinels q) = q.
Proof. apply length_replicate. Qed.

(** A whole round that stays within the pool. *)
Lemma pool_round_eq bs w :
  Forall scorable bs ->
  total_size bs <= pool_size (self w) ->
  let q := query_size (self w) in
  exists h,
    pool_round bs w
    = (World (Strategy q (pool_size (self w)) (Some (total_size bs))
                (Some (merge_batches q 0 (sentinels q) bs).2.*1)
                (Some (merge_batches q 0 (sentinels q) bs).2.*2)) h, Ok tt).
Proof.
  intros Hbs Hsum q. unfold pool_round, bind. rewrite reset_eq.
  fold q.
  destruct (pool_batches_eq bs
              (World (Strategy q (pool_size (self w)) (Some 0)
                        (Some (replicate q 0)) (Some (replicate q (-1)))) (heap w))
              q (pool_size (self w)) 0 (sentinels q)) as [h Hh].
  - unfold sentinels. by rewrite !fmap_replicate.
  - apply length_sentinels.
  - done.
  - lia.
  - rewrite Hh. exists h. rewrite merge_batches_counter.
    by rewrite Z.add_0_l.
Qed.
End PipelineFacts.

(** ** A stable sort by score is a sort by score and index *)

Lemma lex_geb_total p q : lex_geb p q = true \/ lex_geb q p = true.
Proof. unfold lex_geb. lia. Qed.

Lemma lex_geb_trans p q r :
  lex_geb p q = true -> lex_geb q r = true -> lex_geb p r = true.
Proof. unfold lex_geb. lia. Qed.

Lemma lex_geb_antisym p q : lex_geb p q = true -> lex_geb q p = true -> p = q.
Proof.
  destruct p as [v i], q as [v' i']. unfold lex_geb. simpl. intros H1 H2.
  f_equal; lia.
Qed.

Lemma lex_geb_tie_le p q : lex_geb p q = true -> tie_le p q.
Proof. unfold lex_geb, tie_le. lia. Qed.

Lemma insert_desc_score_lex p l :
  Forall (tie_le p) l ->
  insert_desc score_geb p l = insert_desc lex_geb p l.
Proof.
  induction 1 as [|q l Hq _ IH]; simpl; [done|].
  rewrite IH.
  replace (score_geb p q) with (lex_geb p q); [done|].
  unfold lex_geb, score_geb, geb, tie_le in *. lia.
Qed.

Lemma sort_desc_score_lex l :
  StronglySorted tie_le l -> sort_desc score_geb l = sort_desc lex_geb l.
Proof.
  induction 1 as [|p l _ IH Hp]; [done|].
  change (sort_desc score_geb (p :: l))
    with (insert_desc score_geb p (sort_desc score_geb l)).
  rewrite IH. apply insert_desc_score_lex.
  by rewrite (sort_desc_Permutation lex_geb).
Qed.

Lemma sort_desc_lex_StronglySorted l :
  StronglySorted (Before lex_geb) (sort_desc lex_geb l).
Proof.
  apply Sorted_StronglySorted.
  - intros p q r. apply lex_geb_trans.
  - apply sort_desc_Sorted, lex_geb_total.
Qed.

Lemma StronglySorted_impl {A} (R1 R2 : A -> A -> Prop) l :
  (forall x y, R1 x y -> R2 x y) -> StronglySorted R1 l -> StronglySorted R2 l.
Proof.
  intros HR. induction 1 as [|x l _ IH Hx]; constructor; [done|].
  eapply Forall_impl; [exact Hx|]. apply HR.
Qed.

Lemma StronglySorted_take {A} (R : A -> A -> Prop) k l :
  StronglySorted R l -> StronglySorted R (take k l).
Proof.
  intros Hl. revert k. induction Hl as [|x l _ IH Hx]; intros [|k]; simpl;
    try by constructor.
  constructor; [apply IH|].
  eapply Forall_forall. intros y Hy. apply (subseteq_take k) in Hy.
  by eapply Forall_forall in Hx.
Qed.

(** ** The pairs of a pool *)

Lemma fmap_zip_seq_S (c : Z) (l : list Z) j n :
  (fun p : Z * nat => (p.1, c + Z.of_nat p.2)) <$> zip l (seq (S j) n)
  = (fun p : Z * nat => (p.1, c + 1 + Z.of_nat p.2)) <$> zip l (seq j n).
Proof.
  revert j n. induction l as [|x l IH]; intros j [|n]; csimpl; [done..|].
  rewrite IH. do 2 f_equal. lia.
Qed.

Lemma length_indexed_from c scores : length (indexed_from c scores) = length scores.
Proof. unfold indexed_from. by rewrite length_fmap, length_enumerate. Qed.


Lemma indexed_from_cons c x scores :
  indexed_from c (x :: scores) = (x, c) :: indexed_from (c + 1) scores.
Proof.
  unfold indexed_from, enumerate. csimpl.
  rewrite fmap_zip_seq_S. f_equal. f_equal. lia.
Qed.

Lemma indexed_from_app c l1 l2 :
  indexed_from c (l1 ++ l2)
  = indexed_from c l1 ++ indexed_from (c + Z.of_nat (length l1)) l2.
Proof.
  revert c. induction l1 as [|x l1 IH]; intros c.
  - simpl. by rewrite Z.add_0_r.
  - rewrite <- app_comm_cons, !indexed_from_cons, IH. simpl length.
    rewrite <- app_comm_cons. do 3 f_equal. lia.
Qed.

Lemma indexed_from_bounds c scores p :
  p ∈ indexed_from c scores -> c <= p.2 < c + Z.of_nat (length scores).
Proof.
  revert c. induction scores as [|x l IH]; intros c.
  - by intros ?%elem_of_nil.
  - rewrite indexed_from_cons. intros [->|Hp]%elem_of_cons; simpl length.
    + simpl. lia.
    + apply IH in Hp. lia.
Qed.

Lemma indexed_from_lookup c scores p :
  p ∈ indexed_from c scores -> scores !! Z.to_nat (p.2 - c) = Some p.1.
Proof.
  revert c. induction scores as [|x l IH]; intros c.
  - by intros ?%elem_of_nil.
  - rewrite indexed_from_cons. intros [->|Hp]%elem_of_cons.
    + simpl. by rewrite Z.sub_diag.
    + pose proof (indexed_from_bounds _ _ _ Hp). apply IH in Hp.
      replace (Z.to_nat (p.2 - c)) with (S (Z.to_nat (p.2 - (c + 1)))) by lia.
      done.
Qed.

Lemma indexed_from_tie_sorted c scores : StronglySorted tie_le (indexed_from c scores).
Proof.
  revert c. induction scores as [|x l IH]; intros c.
  - constructor.
  - rewrite indexed_from_cons. constructor; [apply IH|].
    apply Forall_forall. intros p Hp%indexed_from_bounds.
    unfold tie_le. simpl. lia.
Qed.

Lemma candidates_lex q c scores :
  candidates q c scores = take q (sort_desc lex_geb (indexed_from c scores)).
Proof.
  unfold candidates. rewrite fmap_take.
  rewrite (fmap_sort_desc _ score_geb score_geb) by done.
  fold (indexed_from c scores).
  rewrite sort_desc_score_lex by apply indexed_from_tie_sorted.
  rewrite <- (length_indexed_from c scores), <- (length_sort_desc lex_geb).
  apply take_min_length.
Qed.

(** ** The state of a round, as the best pairs of the pool *)

Lemma sort_desc_lex_sentinels q : sort_desc lex_geb (sentinels q) = sentinels q.
Proof.
  apply sort_desc_Sorted_id. unfold sentinels.
  induction q as [|q IH]; simpl; [constructor|].
  constructor; [done|]. destruct q; by constructor.
Qed.


(** One merge: the state is the best of what was seen, the batch starts at
    the counter. *)
Lemma merged_lex q st c scores seen :
  st = take q (sort_desc lex_geb seen) ->
  Forall (fun p => p.2 < c) seen ->
  merged q st (candidates q c scores)
  = take q (sort_desc lex_geb (seen ++ indexed_from c scores)).
Proof.
  intros -> Hseen. unfold merged. rewrite candidates_lex.
  rewrite sort_desc_score_lex.
  - rewrite (top_absorb_r lex_geb lex_geb_total).
    by rewrite (top_absorb_l lex_geb lex_geb_total lex_geb_trans lex_geb_antisym).
  - apply StronglySorted_app_2.
    + intros p1 p2 H1 H2.
      apply (subseteq_take q) in H1, H2.
      rewrite (sort_desc_Permutation lex_geb) in H1, H2.
      apply indexed_from_bounds in H2.
      rewrite Forall_forall in Hseen. apply Hseen in H1.
      unfold tie_le. lia.
    + apply StronglySorted_take.
      eapply StronglySorted_impl; [apply lex_geb_tie_le|].
      apply sort_desc_lex_StronglySorted.
    + apply StronglySorted_take.
      eapply StronglySorted_impl; [apply lex_geb_tie_le|].
      apply sort_desc_lex_StronglySorted.
Qed.

Lemma sentinels_before_counter q c :
  0 <= c -> Forall (fun p : Z * Z => p.2 < c) (sentinels q).
Proof.
  intros Hc. apply Forall_forall. intros p Hp.
  apply elem_of_replicate in Hp as [-> _]. simpl. lia.
Qed.





Section RoundFacts.
Context {Batch Logits : Type}.
Variable forward : Batch -> Logits.
Variable shape0 : Logits -> nat.
Variable objective' : Logits -> outcome tensor.

#[local] Abbreviation pool_round := (pool_round forward shape0 objective').
#[local] Abbreviation batch_scores := (batch_scores forward objective').
#[local] Abbreviation batch_size := (batch_size forward shape0).
#[local] Abbreviation scorable := (scorable forward objective').
#[local] Abbreviation one_score_per_example :=
  (one_score_per_example forward shape0 objective').
#[local] Abbreviation merge_batches := (merge_batches forward shape0 objective').
#[local] Abbreviation total_size := (total_size forward shape0).
#[local] Abbreviation pool_scores := (pool_scores forward objective').

Lemma one_score_scorable b : one_score_per_example b -> scorable b.
Proof. intros (raw & Hraw & _). by exists raw. Qed.

Lemma one_score_size b :
  one_score_per_example b -> batch_size b = Z.of_nat (length (batch_scores b)).
Proof.
  intros (raw & Hraw & Hlen). unfold batch_size, batch_scores.
  by rewrite Hraw, Hlen.
Qed.


Lemma merge_batches_lex q bs c st pool :
  c = Z.of_nat (length pool) ->
  st = take q (sort_desc lex_geb (sentinels q ++ indexed_from 0 pool)) ->
  Forall one_score_per_example bs ->
  (merge_batches q c st bs).2
  = take q (sort_desc lex_geb (sentinels q ++ indexed_from 0 (pool ++ pool_scores bs))).
Proof.
  intros Hc Hst Hbs. revert c st pool Hc Hst.
  induction Hbs as [|b bs Hb _ IH]; intros c st pool Hc Hst.
  - simpl. unfold pool_scores. simpl. by rewrite app_nil_r.
  - simpl. rewrite pool_scores_cons, app_assoc. apply IH.
    + rewrite length_app, one_score_size by done. lia.
    + rewrite (merged_lex q st c _ (sentinels q ++ indexed_from 0 pool)); [|done|].
      * rewrite indexed_from_app, Z.add_0_l, <- Hc. by rewrite app_assoc.
      * apply Forall_app. split; [apply sentinels_before_counter; lia|].
        apply Forall_forall. intros p Hp%indexed_from_bounds. lia.
Qed.

(** A round over batches with one score per example, within the pool: the
    state holds the [query_size] best pairs among the pairs of [reset] and
    the pairs of the pool, equal scores in the order of their indices. *)
Lemma pool_round_pairs bs w :
  Forall one_score_per_example bs ->
  total_size bs <= pool_size (self w) ->
  let q := query_size (self w) in
  let st := take q (sort_desc lex_geb (sentinels q ++ indexed_from 0 (pool_scores bs))) in
  exists w',
    pool_round bs w = (w', Ok tt) /\
    values (self w') = Some st.*1 /\
    indices (self w') = Some st.*2.
Proof.
  intros Hbs Hsum q st.
  assert (Hsc : Forall scorable bs).
  { eapply Forall_impl; [exact Hbs|]. apply one_score_scorable. }
  destruct (pool_round_eq forward shape0 objective' bs w Hsc Hsum) as [h Hh].
  cbn zeta in Hh. fold q in Hh. eexists. split; [exact Hh|].
  cbn [self values indices].
  rewrite (merge_batches_lex q bs 0 (sentinels q) []); [done|done| |done].
  simpl. unfold indexed_from, enumerate. simpl. rewrite app_nil_r.
  rewrite sort_desc_lex_sentinels. unfold sentinels.
  by rewrite take_replicate, Nat.min_id.
Qed.
End RoundFacts.

(** ** What a round computes *)

(** X7. After a round over batches with one score per example, within the pool,
    every slot holds either the pair (0, -1) written by [reset] or a score of
    the pool with its index in the pool; so a slot has the index -1 exactly
    when it still holds the pair of [reset]. *)
Theorem round_slots_are_reset_or_pool_pairs {Batch Logits : Type}
    (forward : Batch -> Logits) (shape0 : Logits -> nat)
    (objective' : Logits -> outcome tensor) (batches : list Batch) (w : world) :
  Forall (one_score_per_example forward shape0 objective') batches ->
  total_size forward shape0 batches <= pool_size (self w) ->
  exists w' vals idxs,
    pool_round forward shape0 objective' batches w = (w', Ok tt) /\
    values (self w') = Some vals /\
    indices (self w') = Some idxs /\
    length vals = query_size (self w) /\
    length idxs = query_size (self w) /\
    forall j v i, vals !! j = Some v -> idxs !! j = Some i ->
      (v = 0 /\ i = -1) \/
      (0 <= i /\ pool_scores forward objective' batches !! Z.to_nat i = Some v).
Proof.
  intros Hbs Hsum.
  destruct (pool_round_pairs forward shape0 objective' batches w Hbs Hsum)
    as (w' & Hw' & Hv & Hi).
  cbn zeta in Hv, Hi.
  set (q := query_size (self w)) in *.
  set (st := take q (sort_desc lex_geb
                       (sentinels q ++ indexed_from 0 (pool_scores forward objective' batches))))
    in *.
  assert (Hlen : length st = q).
  { unfold st. rewrite length_take, length_sort_desc, length_app, length_sentinels. lia. }
  exists w', st.*1, st.*2. split_and!; [done|done|done|by rewrite length_fmap..|].
  intros j v i Hjv Hji. rewrite list_lookup_fmap in Hjv, Hji.
  destruct (st !! j) as [[v' i']|] eqn:Hj; [|done]. simpl in *.
  injection Hjv as ->. injection Hji as ->.
  apply list_elem_of_lookup_2 in Hj. apply (subseteq_take q) in Hj.
  rewrite (sort_desc_Permutation lex_geb) in Hj.
  apply elem_of_app in Hj as [Hj|Hj].
  - left. apply elem_of_replicate in Hj as [[= -> ->] _]. done.
  - right. pose proof (indexed_from_bounds _ _ _ Hj) as Hb.
    apply indexed_from_lookup in Hj. simpl in *.
    rewrite Z.sub_0_r in Hj. split; [lia|done].
Qed.


Lemma score_strategy_one_score_per_example (batches : list (list Z)) :
  Forall (one_score_per_example ScoreStrategy.forward ScoreStrategy.shape0
            ScoreStrategy.objective) batches.
Proof.
  apply Forall_forall. intros b _. eexists. split; [reflexivity|].
  unfold on_after_objective, vector, ScoreStrategy.shape0, on_before_objective,
    ScoreStrategy.forward. simpl.
  induction b as [|x b IH]; csimpl; [done|]. by rewrite IH.
Qed.


(** * The claims *)

(** C5. Whatever the state of a connected strategy was, [reset] ends
    normally and leaves the counter at 0, [values] a sequence of
    [query_size] zeros and [indices] a sequence of [query_size] times -1.
    The query size, the pool size and the store are as before. *)
Theorem reset_establishes_empty_state (w : world) :
  exists w',
    reset w = (w', Ok tt) /\
    _counter (self w') = Some 0 /\
    values (self w') = Some (replicate (query_size (self w)) 0) /\
    indices (self w') = Some (replicate (query_size (self w)) (-1)) /\
    query_size (self w') = query_size (self w) /\
    pool_size (self w') = pool_size (self w) /\
    heap w' = heap w.
Proof. eexists. rewrite reset_eq. by repeat split. Qed.

(** C8. The [objective] of the base class raises [NotImplementedError] on
    every input, and so do [test_step] and one iteration of the pool loop of a
    strategy that does not override it; the strategy and the store are then
    exactly as they were before the call. *)
Theorem objective_not_implemented {Batch Logits : Type}
    (forward : Batch -> Logits) (shape0 : Logits -> nat) (batch : Batch) (w : world) :
  objective (forward batch) = Raise NotImplementedError /\
  test_step forward shape0 objective batch w = (w, Raise NotImplementedError) /\
  pool_step forward shape0 objective batch w = (w, Raise NotImplementedError).
Proof. done. Qed.

Lemma fmap_add_comm (c : Z) (t : list Z) : Z.add c <$> t = (fun i => i + c) <$> t.
Proof. apply list_fmap_ext. intros _ x _. lia. Qed.

Lemma score_strategy_scorable (batches : list (list Z)) :
  Forall (scorable ScoreStrategy.forward ScoreStrategy.objective) batches.
Proof. apply Forall_forall. intros b _. by eexists. Qed.

(** C6. A call of [_batch_to_pool] with the counter at [c] leaves in the
    index tensor every batch-local index plus [c], answers that tensor when it
    does not raise, and moves the counter to [c + batch_size].  So a round over
    batches whose sizes add up to at most [pool_size] ends normally with the
    counter at exactly the sum of the sizes. *)
Theorem batch_to_pool_translates_and_counts {Batch Logits : Type}
    (forward : Batch -> Logits) (shape0 : Logits -> nat)
    (objective' : Logits -> outcome tensor) (batches : list Batch) (w0 : world)
    (w : world) (l : loc) (t : list Z) (c n : Z) :
  _counter (self w) = Some c ->
  heap w !! l = Some t ->
  Forall (scorable forward objective') batches ->
  total_size forward shape0 batches <= pool_size (self w0) ->
  (_counter (self (_batch_to_pool l n w).1) = Some (c + n) /\
   heap (_batch_to_pool l n w).1 !! l = Some ((fun i => i + c) <$> t) /\
   (c + n <= pool_size (self w) -> (_batch_to_pool l n w).2 = Ok l)) /\
  (exists w', pool_round forward shape0 objective' batches w0 = (w', Ok tt) /\
     _counter (self w') = Some (total_size forward shape0 batches)).
Proof.
  intros Hc Hl Hbs Hsum. split.
  - rewrite (_batch_to_pool_eq w l t c n) by done. cbn [fst snd self heap _counter].
    split_and!; [done| |].
    + rewrite list_lookup_insert_eq by (by eapply lookup_lt_Some).
      by rewrite fmap_add_comm.
    + intros Hle. by rewrite bool_decide_false by lia.
  - destruct (pool_round_eq forward shape0 objective' batches w0 Hbs Hsum) as [h Hh].
    eexists. split; [apply Hh|done].
Qed.

Lemma batch_to_pool_translates_and_counts_witness :
  let w := World (Strategy 2 5 (Some 2) (Some [9; 1]) (Some [1; 0])) [[2; 0]] in
  let batches := [[1; 9]; [3; 2; 95]] in
  (_counter (self w) = Some 2 /\ heap w !! 0%nat = Some [2; 0] /\
   total_size ScoreStrategy.forward ScoreStrategy.shape0 batches
     <= pool_size (self (ScoreStrategy.fresh 5 2))) /\
  (_counter (self (_batch_to_pool 0%nat 3 w).1) = Some 5 /\
   heap (_batch_to_pool 0%nat 3 w).1 !! 0%nat = Some [4; 2] /\
   (2 + 3 <= pool_size (self w) -> (_batch_to_pool 0%nat 3 w).2 = Ok 0%nat)) /\
  (exists w', ScoreStrategy.round 5 2 batches = (w', Ok tt) /\
     _counter (self w') = Some 5).
Proof.
  intros w batches.
  assert (Hsum : total_size ScoreStrategy.forward ScoreStrategy.shape0 batches
                 <= pool_size (self (ScoreStrategy.fresh 5 2)))
    by (vm_compute; discriminate).
  split; [split_and!; [reflexivity|reflexivity|exact Hsum]|].
  exact (batch_to_pool_translates_and_counts
           ScoreStrategy.forward ScoreStrategy.shape0 ScoreStrategy.objective
           batches (ScoreStrategy.fresh 5 2) w 0%nat [2; 0] 2 3
           eq_refl eq_refl (score_strategy_scorable batches) Hsum).
Defined.

(** C9. [_batch_to_pool] works in place: whether it returns or raises, the
    tensor at the caller's location holds the shifted indices afterwards, no
    tensor is allocated and no other tensor changes; what it returns is the
    caller's location itself.  With a counter other than 0 and a tensor that
    is not empty, the batch-local indices can no longer be read. *)
Theorem batch_to_pool_mutates_in_place (w : world) (l : loc) (t : list Z) (c n : Z) :
  _counter (self w) = Some c ->
  heap w !! l = Some t ->
  let r := _batch_to_pool l n w in
  heap r.1 = <[l := (fun i => i + c) <$> t]> (heap w) /\
  heap r.1 !! l = Some ((fun i => i + c) <$> t) /\
  length (heap r.1) = length (heap w) /\
  (forall l', l' <> l -> heap r.1 !! l' = heap w !! l') /\
  (forall l', r.2 = Ok l' -> l' = l) /\
  (c + n <= pool_size (self w) -> r.2 = Ok l) /\
  (c <> 0 -> t <> [] -> heap r.1 !! l <> Some t).
Proof.
  intros Hc Hl r. unfold r. rewrite (_batch_to_pool_eq w l t c n) by done.
  cbn [fst snd heap]. rewrite fmap_add_comm.
  assert (Hlt : (l < length (heap w))%nat) by (by eapply lookup_lt_Some).
  split_and!.
  - done.
  - by rewrite list_lookup_insert_eq.
  - by rewrite length_insert.
  - intros l' Hne. by rewrite list_lookup_insert_ne.
  - intros l'. case_bool_decide; congruence.
  - intros Hle. by rewrite bool_decide_false by lia.
  - intros Hc0 Ht. rewrite list_lookup_insert_eq by done.
    destruct t as [|x t]; [done|]. intros [= Hx _]. lia.
Qed.

Lemma batch_to_pool_mutates_in_place_witness :
  let w := World (Strategy 2 5 (Some 2) (Some [9; 1]) (Some [1; 0])) [[7]; [2; 0]] in
  (_counter (self w) = Some 2 /\ heap w !! 1%nat = Some [2; 0]) /\
  heap (_batch_to_pool 1%nat 3 w).1 = [[7]; [4; 2]] /\
  (_batch_to_pool 1%nat 3 w).2 = Ok 1%nat.
Proof.
  intros w.
  pose proof (batch_to_pool_mutates_in_place w 1%nat [2; 0] 2 3 eq_refl eq_refl)
    as (Hheap & _ & _ & _ & _ & Hret & _).
  split; [split; reflexivity|]. split; [exact Hheap|].
  apply Hret. vm_compute. discriminate.
Defined.

(** C10. When the counter goes beyond [pool_size], [_batch_to_pool] raises
    only after its two writes: the world in which the error is raised has the
    counter advanced beyond [pool_size] and the caller's tensor translated to
    pool indices.  [test_step_end] stops at that error in that same world, so
    [values] and [indices] are not merged; and with a batch that is not empty
    the counter differs from the one before the call. *)
Theorem overflow_error_is_not_atomic (w : world) (vb : list Z) (l : loc)
    (t : list Z) (c n : Z) :
  _counter (self w) = Some c ->
  heap w !! l = Some t ->
  pool_size (self w) < c + n ->
  exists w',
    _batch_to_pool l n w = (w', Raise (RuntimeError overflow_message)) /\
    test_step_end (vb, l, n) w = (w', Raise (RuntimeError overflow_message)) /\
    _counter (self w') = Some (c + n) /\
    pool_size (self w') < c + n /\
    heap w' !! l = Some ((fun i => i + c) <$> t) /\
    values (self w') = values (self w) /\
    indices (self w') = indices (self w) /\
    (n <> 0 -> _counter (self w') <> _counter (self w)).
Proof.
  intros Hc Hl Hover. eexists.
  assert (Hb := _batch_to_pool_eq w l t c n Hc Hl).
  rewrite bool_decide_true in Hb by lia.
  split; [exact Hb|]. split.
  - unfold test_step_end, bind. by rewrite Hb.
  - cbn [self heap _counter pool_size values indices].
    split_and!; try done.
    + rewrite list_lookup_insert_eq by (by eapply lookup_lt_Some).
      by rewrite fmap_add_comm.
    + intros Hn. rewrite Hc. intros [= ?]. lia.
Qed.

Lemma overflow_error_is_not_atomic_witness :
  let w := World (Strategy 1 2 (Some 1) (Some [2]) (Some [0])) [[0]; [1]] in
  (_counter (self w) = Some 1 /\ heap w !! 1%nat = Some [1] /\
   pool_size (self w) < 1 + 2) /\
  exists w',
    _batch_to_pool 1%nat 2 w = (w', Raise (RuntimeError overflow_message)) /\
    test_step_end ([4], 1%nat, 2) w = (w', Raise (RuntimeError overflow_message)) /\
    _counter (self w') = Some 3 /\
    pool_size (self w') < 3 /\
    heap w' !! 1%nat = Some [2] /\
    values (self w') = Some [2] /\
    indices (self w') = Some [0] /\
    (2 <> 0 -> _counter (self w') <> Some 1).
Proof.
  intros w.
  assert (Hover : pool_size (self w) < 1 + 2) by reflexivity.
  split; [split_and!; [reflexivity|reflexivity|exact Hover]|].
  exact (overflow_error_is_not_atomic w [4] 1%nat [1] 1 2 eq_refl eq_refl Hover).
Defined.

(** C4. In a round, let the batches [pre] be within the pool size.  Then
    none of them raises.  If the next batch [b] still fits, also when it
    takes the counter to exactly [pool_size], its iteration ends normally.
    If it takes the running sum beyond [pool_size], its iteration raises the
    state-corruption [RuntimeError], and the round stops with that error
    whatever comes after [b]. *)
Theorem overflow_raised_on_the_overflowing_batch {Batch Logits : Type}
    (forward : Batch -> Logits) (shape0 : Logits -> nat)
    (objective' : Logits -> outcome tensor)
    (pre : list Batch) (b : Batch) (w : world) :
  Forall (scorable forward objective') (pre ++ [b]) ->
  total_size forward shape0 pre <= pool_size (self w) ->
  exists w1,
    pool_round forward shape0 objective' pre w = (w1, Ok tt) /\
    (total_size forward shape0 pre + batch_size forward shape0 b <= pool_size (self w) ->
     exists w2,
       pool_step forward shape0 objective' b w1 = (w2, Ok tt) /\
       pool_round forward shape0 objective' (pre ++ [b]) w = (w2, Ok tt)) /\
    (pool_size (self w) < total_size forward shape0 pre + batch_size forward shape0 b ->
     exists w2,
       pool_step forward shape0 objective' b w1
       = (w2, Raise (RuntimeError overflow_message)) /\
       forall post,
         pool_round forward shape0 objective' (pre ++ b :: post) w
         = (w2, Raise (RuntimeError overflow_message))).
Proof.
  intros Hbs Hsum. apply Forall_app in Hbs as [Hpre Hb].
  apply Forall_inv in Hb.
  destruct (pool_round_eq forward shape0 objective' pre w Hpre Hsum) as [h Hh].
  cbn zeta in Hh. eexists. split; [exact Hh|].
  set (q := query_size (self w)) in *.
  set (st := (merge_batches forward shape0 objective' q 0 (sentinels q) pre).2) in *.
  assert (Hq : length st = q) by apply merge_batches_length, length_sentinels.
  set (w1 := World (Strategy q (pool_size (self w))
                       (Some (total_size forward shape0 pre)) (Some st.*1) (Some st.*2)) h)
    in *.
  assert (Hround : forall post,
    pool_round forward shape0 objective' (pre ++ b :: post) w
    = match pool_step forward shape0 objective' b w1 with
      | (w', Ok _) => pool_batches forward shape0 objective' post w'
      | (w', Raise e) => (w', Raise e)
      end).
  { intros post. unfold pool_round, bind in Hh |- *. rewrite reset_eq in Hh |- *.
    by rewrite pool_batches_app, Hh. }
  split.
  - intros Hfit. rewrite Hround.
    rewrite (pool_step_eq forward shape0 objective' b w1 q (pool_size (self w))
               (total_size forward shape0 pre) st) by done.
    cbn zeta. rewrite bool_decide_false by lia. eauto.
  - intros Hover.
    destruct (pool_step_overflow forward shape0 objective' b w1
                q (pool_size (self w)) (total_size forward shape0 pre) st)
      as [h' Hh']; [done..|].
    eexists. split; [exact Hh'|]. intros post. by rewrite Hround, Hh'.
Qed.

Lemma overflow_raised_on_the_overflowing_batch_witness :
  let w := ScoreStrategy.fresh 4 2 in
  (Forall (scorable ScoreStrategy.forward ScoreStrategy.objective) ([[1; 9]; [3; 2]] ++ [[5]]) /\
   total_size ScoreStrategy.forward ScoreStrategy.shape0 [[1; 9]; [3; 2]]
     <= pool_size (self w)) /\
  exists w1,
    ScoreStrategy.round 4 2 [[1; 9]; [3; 2]] = (w1, Ok tt) /\
    (4 + 1 <= 4 ->
     exists w2,
       pool_step ScoreStrategy.forward ScoreStrategy.shape0 ScoreStrategy.objective [5] w1
       = (w2, Ok tt) /\
       ScoreStrategy.round 4 2 ([[1; 9]; [3; 2]] ++ [[5]]) = (w2, Ok tt)) /\
    (4 < 4 + 1 ->
     exists w2,
       pool_step ScoreStrategy.forward ScoreStrategy.shape0 ScoreStrategy.objective [5] w1
       = (w2, Raise (RuntimeError overflow_message)) /\
       forall post,
         ScoreStrategy.round 4 2 ([[1; 9]; [3; 2]] ++ [5] :: post)
         = (w2, Raise (RuntimeError overflow_message))).
Proof.
  intros w.
  assert (Hsum : total_size ScoreStrategy.forward ScoreStrategy.shape0 [[1; 9]; [3; 2]]
                 <= pool_size (self w)) by (vm_compute; discriminate).
  split; [split; [apply score_strategy_scorable|exact Hsum]|].
  exact (overflow_raised_on_the_overflowing_batch
           ScoreStrategy.forward ScoreStrategy.shape0 ScoreStrategy.objective
           [[1; 9]; [3; 2]] [5] w (score_strategy_scorable _) Hsum).
Defined.

(** C7. When the acquisition function answers with one score per example,
    [test_step] returns, without touching the strategy, a tensor of values
    and a new tensor of indices, both of length
    [B = min batch_size query_size], hence at most [query_size], together
    with the batch size.  The values are the [B] largest scores of the batch,
    largest first, and every index is the position in the batch of the score
    returned in the same place. *)
Theorem test_step_returns_batch_topk {Batch Logits : Type}
    (forward : Batch -> Logits) (shape0 : Logits -> nat)
    (objective' : Logits -> outcome tensor)
    (batch : Batch) (w : world) (raw : tensor) :
  objective' (on_before_objective (forward batch)) = Ok raw ->
  length (on_after_objective raw) = shape0 (on_before_objective (forward batch)) ->
  let B := Nat.min (shape0 (on_before_objective (forward batch))) (query_size (self w)) in
  exists vals idx l w',
    test_step forward shape0 objective' batch w
    = (w', Ok (vals, l, batch_size forward shape0 batch)) /\
    self w' = self w /\
    heap w' !! l = Some idx /\
    heap w !! l = None /\
    length vals = B /\
    length idx = B /\
    (B <= query_size (self w))%nat /\
    vals = take B (sort_desc geb (on_after_objective raw)) /\
    forall j i, idx !! j = Some i ->
      exists (p : nat) (v : Z),
        i = Z.of_nat p /\
        (p < shape0 (on_before_objective (forward batch)))%nat /\
        on_after_objective raw !! p = Some v /\
        vals !! j = Some v.
Proof.
  intros Hraw Hone B.
  assert (Hb : scorable forward objective' batch) by (by exists raw).
  assert (Hscores : batch_scores forward objective' batch = on_after_objective raw).
  { unfold batch_scores. by rewrite Hraw. }
  rewrite (test_step_eq forward shape0 objective' batch w Hb). cbn zeta.
  rewrite Hscores, Hone. fold B.
  set (sel := topk_select (on_after_objective raw) B).
  exists sel.1, (Z.of_nat <$> sel.2), (length (heap w)), (World (self w) (heap w ++ [Z.of_nat <$> sel.2])).
  assert (HB : Nat.min B (length (on_after_objective raw)) = B) by (unfold B; lia).
  split_and!.
  - done.
  - done.
  - cbn [heap]. by rewrite lookup_app_r, Nat.sub_diag by lia.
  - by apply lookup_ge_None_2.
  - unfold sel. by rewrite topk_select_length_1.
  - unfold sel. by rewrite length_fmap, topk_select_length_2.
  - unfold B. lia.
  - unfold sel. apply topk_select_values.
  - intros j i Hj. rewrite list_lookup_fmap in Hj.
    destruct (sel.2 !! j) as [p|] eqn:Hp; [|done]. injection Hj as <-.
    assert (Hlt : (j < length sel.1)%nat).
    { apply lookup_lt_Some in Hp. unfold sel in *.
      rewrite topk_select_length_1. by rewrite topk_select_length_2 in Hp. }
    apply lookup_lt_is_Some in Hlt as [v Hv].
    pose proof (topk_select_lookup _ _ _ _ _ Hv Hp) as Hin.
    exists p, v. split_and!; [done| |done|done].
    rewrite <- Hone. by eapply lookup_lt_Some.
Qed.

Lemma test_step_returns_batch_topk_witness :
  let w := World (Strategy 2 5 (Some 2) (Some [9; 1]) (Some [1; 0])) [[1; 0]] in
  (ScoreStrategy.objective (on_before_objective (ScoreStrategy.forward [3; 2; 95]))
   = Ok (vector [3; 2; 95]) /\
   length (on_after_objective (vector [3; 2; 95]))
   = ScoreStrategy.shape0 (on_before_objective (ScoreStrategy.forward [3; 2; 95]))) /\
  exists vals idx l w',
    test_step ScoreStrategy.forward ScoreStrategy.shape0 ScoreStrategy.objective [3; 2; 95] w
    = (w', Ok (vals, l, 3)) /\
    self w' = self w /\
    heap w' !! l = Some idx /\
    heap w !! l = None /\
    length vals = 2%nat /\
    length idx = 2%nat /\
    (2 <= 2)%nat /\
    vals = [95; 3] /\
    forall j i, idx !! j = Some i ->
      exists (p : nat) (v : Z),
        i = Z.of_nat p /\ (p < 3)%nat /\ [3; 2; 95] !! p = Some v /\ vals !! j = Some v.
Proof.
  intros w. split; [split; reflexivity|].
  exact (test_step_returns_batch_topk
           ScoreStrategy.forward ScoreStrategy.shape0 ScoreStrategy.objective
           [3; 2; 95] w (vector [3; 2; 95]) eq_refl eq_refl).
Defined.

(** C3, as stated, fails: the index that [_batch_to_pool] gives to an example
    is its position in the order of processing.  With query size 1, the
    batches [[1]] and [[2]] processed in the two orders both end normally, and
    leave the pair (2, 1) in one order and the pair (2, 0) in the other. *)
Lemma batch_order_changes_the_pairs :
  [[1]; [2]] ≡ₚ [[2]; [1]] /\
  (ScoreStrategy.round 2 1 [[1]; [2]]).2 = Ok tt /\
  (ScoreStrategy.round 2 1 [[2]; [1]]).2 = Ok tt /\
  state_pairs (ScoreStrategy.round 2 1 [[1]; [2]]).1 = [(2, 1)] /\
  state_pairs (ScoreStrategy.round 2 1 [[2]; [1]]).1 = [(2, 0)] /\
  ~ (state_pairs (ScoreStrategy.round 2 1 [[1]; [2]]).1
     ≡ₚ state_pairs (ScoreStrategy.round 2 1 [[2]; [1]]).1).
Proof.
  split_and!; [apply Permutation_swap|reflexivity..|].
  vm_compute. intros H. apply Permutation_singleton_inj in H. discriminate.
Qed.

(** C3, amended.  For batches whose sizes add up to at most [pool_size],
    processing them after [reset] in two different orders ends normally both
    times, with the same sequence [values] and the same counter.  (The
    indices are positions in the order of processing.) *)
Theorem round_values_do_not_depend_on_batch_order {Batch Logits : Type}
    (forward : Batch -> Logits) (shape0 : Logits -> nat)
    (objective' : Logits -> outcome tensor)
    (batches batches' : list Batch) (w : world) :
  batches ≡ₚ batches' ->
  Forall (scorable forward objective') batches ->
  total_size forward shape0 batches <= pool_size (self w) ->
  exists w1 w2,
    pool_round forward shape0 objective' batches w = (w1, Ok tt) /\
    pool_round forward shape0 objective' batches' w = (w2, Ok tt) /\
    values (self w1) = values (self w2) /\
    _counter (self w1) = _counter (self w2).
Proof.
  intros Hperm Hbs Hsum.
  assert (Hbs' : Forall (scorable forward objective') batches') by (by rewrite <- Hperm).
  assert (Hsum' : total_size forward shape0 batches' <= pool_size (self w)).
  { by rewrite <- (total_size_perm forward shape0 batches batches'). }
  destruct (pool_round_eq forward shape0 objective' batches w Hbs Hsum) as [h1 H1].
  destruct (pool_round_eq forward shape0 objective' batches' w Hbs' Hsum') as [h2 H2].
  cbn zeta in H1, H2. do 2 eexists. split; [exact H1|]. split; [exact H2|].
  cbn [self values _counter].
  rewrite !(merge_batches_values forward shape0 objective' _ _ _ _ (replicate (query_size (self w)) 0))
    by apply sentinels_values.
  split.
  - do 2 f_equal. apply (sort_desc_perm geb geb_total geb_trans geb_antisym).
    apply Permutation_app_head. by apply pool_scores_perm.
  - f_equal. by apply total_size_perm.
Qed.

Lemma round_values_do_not_depend_on_batch_order_witness :
  ([[1; 9]; [3; 2; 95]] ≡ₚ [[3; 2; 95]; [1; 9]] /\
   Forall (scorable ScoreStrategy.forward ScoreStrategy.objective) [[1; 9]; [3; 2; 95]] /\
   total_size ScoreStrategy.forward ScoreStrategy.shape0 [[1; 9]; [3; 2; 95]]
     <= pool_size (self (ScoreStrategy.fresh 5 2))) /\
  exists w1 w2,
    ScoreStrategy.round 5 2 [[1; 9]; [3; 2; 95]] = (w1, Ok tt) /\
    ScoreStrategy.round 5 2 [[3; 2; 95]; [1; 9]] = (w2, Ok tt) /\
    values (self w1) = values (self w2) /\
    _counter (self w1) = _counter (self w2).
Proof.
  assert (Hperm : [[1; 9]; [3; 2; 95]] ≡ₚ [[3; 2; 95]; [1; 9]]) by apply Permutation_swap.
  assert (Hsum : total_size ScoreStrategy.forward ScoreStrategy.shape0 [[1; 9]; [3; 2; 95]]
                 <= pool_size (self (ScoreStrategy.fresh 5 2)))
    by (vm_compute; discriminate).
  split; [split_and!; [exact Hperm|apply score_strategy_scorable|exact Hsum]|].
  exact (round_values_do_not_depend_on_batch_order
           ScoreStrategy.forward ScoreStrategy.shape0 ScoreStrategy.objective
           [[1; 9]; [3; 2; 95]] [[3; 2; 95]; [1; 9]] (ScoreStrategy.fresh 5 2)
           Hperm (score_strategy_scorable _) Hsum).
Defined.

(** C1, at an input where the code departs from it.  Query size 2 and a pool
    of the three scores -1, -5, -3 in the batches [[-1; -5]] and [[-3]]: the
    round ends normally with the two zeros and the two -1 of [reset], while
    the top 2 of the pool are the scores -1 and -3 at the indices 0 and 2. *)
Theorem negative_scores_never_enter_the_state :
  (ScoreStrategy.round 3 2 [[-1; -5]; [-3]]).2 = Ok tt /\
  values (self (ScoreStrategy.round 3 2 [[-1; -5]; [-3]]).1) = Some [0; 0] /\
  indices (self (ScoreStrategy.round 3 2 [[-1; -5]; [-3]]).1) = Some [-1; -1] /\
  pool_topk 2 (pool_scores ScoreStrategy.forward ScoreStrategy.objective [[-1; -5]; [-3]])
  = ([-1; -3], [0; 2]).
Proof. by vm_compute. Qed.

(** C2, at an input where the code departs from it.  Query size 1 and the
    batches [[-4]] and [[-2]]: after both batches the counter is 2, not below
    the query size, and the only slot still holds the index -1. *)
Theorem sentinel_index_survives_a_full_pool :
  (ScoreStrategy.round 2 1 [[-4]; [-2]]).2 = Ok tt /\
  _counter (self (ScoreStrategy.round 2 1 [[-4]; [-2]]).1) = Some 2 /\
  Z.of_nat (query_size (self (ScoreStrategy.round 2 1 [[-4]; [-2]]).1)) <= 2 /\
  indices (self (ScoreStrategy.round 2 1 [[-4]; [-2]]).1) = Some [-1].
Proof. by vm_compute. Qed.


(** * Further properties of the strategy *)

(** ** What every iteration keeps *)

Lemma ready_pairs w :
  ready w ->
  exists c st,
    self w = Strategy (query_size (self w)) (pool_size (self w)) (Some c)
               (Some st.*1) (Some st.*2) /\
    length st = query_size (self w) /\ 0 <= c.
Proof.
  intros (c & vals & idxs & Hc & Hc0 & Hv & Hi & Hlv & Hli).
  exists c, (zip vals idxs). destruct w as [[q pool c' v i] h]. simpl in *. subst.
  rewrite fst_zip, snd_zip by lia. split_and!; [done| |done].
  rewrite length_zip. lia.
Qed.

Lemma reset_ready w : ready (reset w).1.
Proof.
  rewrite reset_eq. simpl. exists 0, (replicate (query_size (self w)) 0),
    (replicate (query_size (self w)) (-1)).
  simpl. by rewrite !length_replicate.
Qed.

Lemma insert_desc_last {A} (before : A -> A -> bool) x l :
  Forall (fun y => before x y = false) l -> insert_desc before x l = l ++ [x].
Proof.
  induction 1 as [|y l Hy _ IH]; simpl; [done|]. by rewrite Hy, IH.
Qed.

(** The zeros of [reset] keep negative scores out of the best [q]. *)
Lemma take_sort_desc_nonneg q vals scores :
  Forall (fun x => 0 <= x) vals ->
  length vals = q ->
  Forall (fun x => 0 <= x) (take q (sort_desc geb (vals ++ scores))).
Proof.
  intros Hvals Hq.
  rewrite (sort_desc_perm geb geb_total geb_trans geb_antisym _ (scores ++ vals))
    by apply Permutation_app_comm.
  rewrite sort_desc_app.
  assert (H0 : (q <= length (sort_desc geb vals))%nat /\
               Forall (fun x => 0 <= x) (take q (sort_desc geb vals))).
  { rewrite length_sort_desc. split; [lia|].
    rewrite take_ge by (rewrite length_sort_desc; lia).
    by rewrite (sort_desc_Permutation geb). }
  revert H0. generalize (sort_desc geb vals). intros l0 [Hlen H0].
  cut ((q <= length (foldr (insert_desc geb) l0 scores))%nat /\
       Forall (fun x => 0 <= x) (take q (foldr (insert_desc geb) l0 scores)));
    [tauto|].
  induction scores as [|x scores [IHlen IH]]; simpl; [done|].
  split.
  - rewrite (insert_desc_Permutation geb). simpl. lia.
  - rewrite take_insert_desc.
    set (T := take q (foldr (insert_desc geb) l0 scores)) in *.
    assert (HT : length T = q) by (unfold T; rewrite length_take; lia).
    destruct (decide (0 <= x)) as [Hx|Hx].
    + eapply Forall_forall. intros y Hy. apply (subseteq_take q) in Hy.
      rewrite (insert_desc_Permutation geb) in Hy.
      apply elem_of_cons in Hy as [->|Hy]; [done|].
      by eapply Forall_forall in IH.
    + rewrite insert_desc_last.
      * by rewrite take_app_length'.
      * eapply Forall_impl; [exact IH|]. intros y Hy. unfold geb. simpl in *. lia.
Qed.

Section RoundInvariants.
Context {Batch Logits : Type}.
Variable forward : Batch -> Logits.
Variable shape0 : Logits -> nat.
Variable objective' : Logits -> outcome tensor.

#[local] Abbreviation pool_step := (pool_step forward shape0 objective').
#[local] Abbreviation pool_batches := (pool_batches forward shape0 objective').
#[local] Abbreviation pool_round := (pool_round forward shape0 objective').
#[local] Abbreviation batch_scores := (batch_scores forward objective').
#[local] Abbreviation batch_size := (batch_size forward shape0).

(** One iteration on a strategy in use ends in one of three ways. *)
Lemma pool_step_ready b w :
  ready w ->
  ready (pool_step b w).1 /\
  query_size (self (pool_step b w).1) = query_size (self w) /\
  pool_size (self (pool_step b w).1) = pool_size (self w) /\
  (((pool_step b w).2 = Ok tt /\
    exists vals,
      values (self w) = Some vals /\
      values (self (pool_step b w).1)
      = Some (take (query_size (self w)) (sort_desc geb (vals ++ batch_scores b)))) \/
   ((pool_step b w).2 = Raise (RuntimeError overflow_message) /\
    values (self (pool_step b w).1) = values (self w) /\
    indices (self (pool_step b w).1) = indices (self w)) \/
   (exists e,
      objective' (on_before_objective (forward b)) = Raise e /\
      pool_step b w = (w, Raise e))).
Proof.
  intros Hw.
  destruct (objective' (on_before_objective (forward b))) as [raw|e] eqn:Hraw.
  - destruct (ready_pairs w Hw) as (c & st & Hs & Hlen & Hc).
    set (q := query_size (self w)) in *. set (pool := pool_size (self w)) in *.
    assert (Hb : scorable forward objective' b) by (by exists raw).
    rewrite (pool_step_eq forward shape0 objective' b w q pool c st Hs Hlen Hb).
    cbn zeta. pose proof (batch_size_nonneg forward shape0 b) as Hn.
    case_bool_decide; cbn [fst snd self query_size pool_size values indices].
    + split_and!; [|done|done|].
      * exists (c + batch_size b), st.*1, st.*2. simpl.
        rewrite !length_fmap. split_and!; [done|lia|done..].
      * right. left. rewrite Hs. done.
    + split_and!; [|done|done|].
      * exists (c + batch_size b), (merged q st (candidates q c (batch_scores b))).*1,
          (merged q st (candidates q c (batch_scores b))).*2. simpl.
        rewrite !length_fmap, length_merged by done. split_and!; [done|lia|done..].
      * left. split; [done|]. exists st.*1. rewrite Hs. split; [done|].
        rewrite merged_values, candidates_values.
        by rewrite (top_absorb_r geb geb_total).
  - assert (Hstep : pool_step b w = (w, Raise e)).
    { unfold pool_step, bind.
      by rewrite (test_step_raise forward shape0 objective' b w e Hraw). }
    rewrite Hstep. simpl. split_and!; [done..|]. right. right. by exists e.
Qed.

(** The iterations of a round keep the strategy in use and keep every
    property of [values] that the merge keeps; they end normally, or with the
    state-corruption error, or with an error of the acquisition function. *)
Lemma pool_batches_ready (P : list Z -> Prop) bs w :
  (forall vals scores,
     P vals -> length vals = query_size (self w) ->
     P (take (query_size (self w)) (sort_desc geb (vals ++ scores)))) ->
  ready w ->
  (exists vals, values (self w) = Some vals /\ P vals) ->
  ready (pool_batches bs w).1 /\
  query_size (self (pool_batches bs w).1) = query_size (self w) /\
  pool_size (self (pool_batches bs w).1) = pool_size (self w) /\
  (exists vals, values (self (pool_batches bs w).1) = Some vals /\ P vals) /\
  ((pool_batches bs w).2 = Ok tt \/
   (pool_batches bs w).2 = Raise (RuntimeError overflow_message) \/
   exists b e,
     b ∈ bs /\ objective' (on_before_objective (forward b)) = Raise e /\
     (pool_batches bs w).2 = Raise e).
Proof.
  revert w. induction bs as [|b bs IH]; intros w HP Hw Hvals.
  - simpl. split_and!; [done..|by left].
  - simpl. unfold bind.
    destruct (pool_step_ready b w Hw) as (Hw1 & Hq1 & Hp1 & Hcases).
    destruct (pool_step b w) as [w1 o] eqn:Hstep. simpl in *.
    destruct Hcases as [[-> (vals & Hv & Hv1)]|[[-> [Hv1 _]]|(e & He & [= -> ->])]].
    + destruct (IH w1) as (H1 & H2 & H3 & H4 & H5).
      * intros v sc. rewrite Hq1. apply HP.
      * done.
      * destruct Hvals as (vals' & Hv' & HP'). rewrite Hv in Hv'.
        injection Hv' as <-. eexists. split; [exact Hv1|]. apply HP; [done|].
        destruct Hw as (? & ? & ? & ? & ? & Hvv & ? & Hl & ?).
        rewrite Hv in Hvv. by injection Hvv as <-.
      * split_and!; [done|congruence|congruence|done|].
        destruct H5 as [H5|[H5|(b' & e & Hb' & He & H5)]]; [by left|by right; left|].
        right. right. exists b', e. split_and!; [by right|done..].
    + simpl. split_and!; [done..| |by right; left]. by rewrite Hv1.
    + simpl. split_and!; [done..|]. right. right. exists b, e.
      split_and!; [by left|done..].
Qed.

Lemma pool_round_ready (P : list Z -> Prop) bs w :
  (forall vals scores,
     P vals -> length vals = query_size (self w) ->
     P (take (query_size (self w)) (sort_desc geb (vals ++ scores)))) ->
  P (replicate (query_size (self w)) 0) ->
  ready (pool_round bs w).1 /\
  query_size (self (pool_round bs w).1) = query_size (self w) /\
  pool_size (self (pool_round bs w).1) = pool_size (self w) /\
  (exists vals, values (self (pool_round bs w).1) = Some vals /\ P vals) /\
  ((pool_round bs w).2 = Ok tt \/
   (pool_round bs w).2 = Raise (RuntimeError overflow_message) \/
   exists b e,
     b ∈ bs /\ objective' (on_before_objective (forward b)) = Raise e /\
     (pool_round bs w).2 = Raise e).
Proof.
  intros HP H0. unfold pool_round, bind.
  pose proof (reset_ready w) as Hr. rewrite reset_eq in Hr |- *. simpl in Hr.
  set (w0 := World _ (heap w)) in *.
  destruct (pool_batches_ready P bs w0) as (H1 & H2 & H3 & H4 & H5); try done.
  eexists. split; [reflexivity|done].
Qed.
End RoundInvariants.

Lemma StronglySorted_lookup_lt {A} (R : A -> A -> Prop) l i j x y :
  StronglySorted R l -> (i < j)%nat -> l !! i = Some x -> l !! j = Some y -> R x y.
Proof.
  intros Hl. revert i j. induction Hl as [|a l _ IH Ha]; intros i j Hij Hi Hj.
  - done.
  - destruct j as [|j]; [lia|]. destruct i as [|i]; simpl in *.
    + injection Hi as ->. rewrite Forall_forall in Ha.
      by eapply Ha, list_elem_of_lookup_2.
    + apply (IH i j); [lia|done..].
Qed.

Lemma Sorted_replicate_geb q x : Sorted (Before geb) (replicate q x).
Proof.
  induction q as [|q IH]; simpl; [constructor|].
  constructor; [done|]. destruct q; constructor. unfold Before, geb. lia.
Qed.

(** X1. A labelling round, on any strategy and any batches, ends in one of
    three ways only: normally, with the state-corruption [RuntimeError] of
    [_batch_to_pool], or with the error that the acquisition function raised
    on one of the batches.  In particular the merge of [test_step_end] never
    raises once [reset] has run. *)
Theorem round_raises_only_overflow_or_objective_errors {Batch Logits : Type}
    (forward : Batch -> Logits) (shape0 : Logits -> nat)
    (objective' : Logits -> outcome tensor) (batches : list Batch) (w : world) :
  (pool_round forward shape0 objective' batches w).2 = Ok tt \/
  (pool_round forward shape0 objective' batches w).2
  = Raise (RuntimeError overflow_message) \/
  exists b e,
    b ∈ batches /\
    objective' (on_before_objective (forward b)) = Raise e /\
    (pool_round forward shape0 objective' batches w).2 = Raise e.
Proof.
  by destruct (pool_round_ready forward shape0 objective' (fun _ => True) batches w)
    as (_ & _ & _ & _ & H).
Qed.

(** X2. However a labelling round ends, it leaves the counter set and not
    negative and [values] and [indices] with exactly [query_size] entries
    each; the query size and the pool size of the strategy are unchanged. *)
Theorem round_keeps_the_shape_of_the_state {Batch Logits : Type}
    (forward : Batch -> Logits) (shape0 : Logits -> nat)
    (objective' : Logits -> outcome tensor) (batches : list Batch) (w : world) :
  exists c vals idxs,
    _counter (self (pool_round forward shape0 objective' batches w).1) = Some c /\
    0 <= c /\
    values (self (pool_round forward shape0 objective' batches w).1) = Some vals /\
    indices (self (pool_round forward shape0 objective' batches w).1) = Some idxs /\
    length vals = query_size (self w) /\
    length idxs = query_size (self w) /\
    query_size (self (pool_round forward shape0 objective' batches w).1)
    = query_size (self w) /\
    pool_size (self (pool_round forward shape0 objective' batches w).1)
    = pool_size (self w).
Proof.
  destruct (pool_round_ready forward shape0 objective' (fun _ => True) batches w)
    as ((c & vals & idxs & Hc & Hc0 & Hv & Hi & Hlv & Hli) & Hq & Hp & _); [done..|].
  exists c, vals, idxs. rewrite <- Hq at 1 2. done.
Qed.

(** X4. However a labelling round ends, [values] is in descending order: an
    entry is never smaller than an entry at a later position. *)
Theorem round_values_are_descending {Batch Logits : Type}
    (forward : Batch -> Logits) (shape0 : Logits -> nat)
    (objective' : Logits -> outcome tensor) (batches : list Batch) (w : world) :
  exists vals,
    values (self (pool_round forward shape0 objective' batches w).1) = Some vals /\
    forall i j x y,
      (i <= j)%nat -> vals !! i = Some x -> vals !! j = Some y -> y <= x.
Proof.
  destruct (pool_round_ready forward shape0 objective' (Sorted (Before geb)) batches w)
    as (_ & _ & _ & (vals & Hv & Hs) & _).
  - intros vals scores _ _. apply Sorted_take_desc, sort_desc_Sorted, geb_total.
  - apply Sorted_replicate_geb.
  - exists vals. split; [done|]. intros i j x y Hij Hi Hj.
    destruct (decide (i = j)) as [->|Hne]; [rewrite Hi in Hj; injection Hj; lia|].
    apply Sorted_StronglySorted in Hs; [|intros a b c; apply geb_trans].
    assert (Hxy : Before geb x y).
    { apply (StronglySorted_lookup_lt _ vals i j); [done|lia|done..]. }
    unfold Before, geb in Hxy. lia.
Qed.

(** X5. However a labelling round ends, no entry of [values] is negative:
    the zeros that [reset] writes take part in every merge, so a score below
    zero never enters the state. *)
Theorem round_values_are_never_negative {Batch Logits : Type}
    (forward : Batch -> Logits) (shape0 : Logits -> nat)
    (objective' : Logits -> outcome tensor) (batches : list Batch) (w : world) :
  exists vals,
    values (self (pool_round forward shape0 objective' batches w).1) = Some vals /\
    Forall (fun x => 0 <= x) vals.
Proof.
  destruct (pool_round_ready forward shape0 objective' (Forall (fun x => 0 <= x)) batches w)
    as (_ & _ & _ & H & _); [| |done].
  - intros vals scores Hvals Hlen. by apply take_sort_desc_nonneg.
  - apply Forall_forall. by intros x [-> _]%elem_of_replicate.
Qed.

(** X3. A round over batches on which the acquisition function answers and
    whose sizes add up to at most [pool_size] ends normally, and [values]
    then holds the [query_size] largest numbers, largest first, among the
    [query_size] zeros written by [reset] and all scores of the batches. *)
Theorem round_values_are_best_of_zeros_and_scores {Batch Logits : Type}
    (forward : Batch -> Logits) (shape0 : Logits -> nat)
    (objective' : Logits -> outcome tensor) (batches : list Batch) (w : world) :
  Forall (scorable forward objective') batches ->
  total_size forward shape0 batches <= pool_size (self w) ->
  exists w',
    pool_round forward shape0 objective' batches w = (w', Ok tt) /\
    values (self w')
    = Some (take (query_size (self w))
              (sort_desc geb (replicate (query_size (self w)) 0
                              ++ pool_scores forward objective' batches))).
Proof.
  intros Hbs Hsum.
  destruct (pool_round_eq forward shape0 objective' batches w Hbs Hsum) as [h Hh].
  cbn zeta in Hh. eexists. split; [exact Hh|]. cbn [self values].
  by rewrite (merge_batches_values forward shape0 objective' _ _ _ _
                (replicate (query_size (self w)) 0)) by apply sentinels_values.
Qed.

Lemma round_values_are_best_of_zeros_and_scores_witness :
  let batches := [[4; -7]; [-2; 6; 1]] in
  let w := ScoreStrategy.fresh 5 3 in
  (Forall (scorable ScoreStrategy.forward ScoreStrategy.objective) batches /\
   total_size ScoreStrategy.forward ScoreStrategy.shape0 batches <= pool_size (self w)) /\
  exists w',
    ScoreStrategy.round 5 3 batches = (w', Ok tt) /\
    values (self w') = Some [6; 4; 1].
Proof.
  intros batches w.
  assert (Hsum : total_size ScoreStrategy.forward ScoreStrategy.shape0 batches
                 <= pool_size (self w)) by (vm_compute; discriminate).
  split; [split; [apply score_strategy_scorable|exact Hsum]|].
  exact (round_values_are_best_of_zeros_and_scores
           ScoreStrategy.forward ScoreStrategy.shape0 ScoreStrategy.objective
           batches w (score_strategy_scorable batches) Hsum).
Defined.


Lemma round_slots_are_reset_or_pool_pairs_witness :
  let batches := [[4; -7]; [-2]] in
  let w := ScoreStrategy.fresh 3 2 in
  (Forall (one_score_per_example ScoreStrategy.forward ScoreStrategy.shape0
             ScoreStrategy.objective) batches /\
   total_size ScoreStrategy.forward ScoreStrategy.shape0 batches <= pool_size (self w)) /\
  exists w' vals idxs,
    ScoreStrategy.round 3 2 batches = (w', Ok tt) /\
    values (self w') = Some vals /\
    indices (self w') = Some idxs /\
    length vals = 2%nat /\
    length idxs = 2%nat /\
    forall j v i, vals !! j = Some v -> idxs !! j = Some i ->
      (v = 0 /\ i = -1) \/
      (0 <= i /\ [4; -7; -2] !! Z.to_nat i = Some v).
Proof.
  intros batches w.
  assert (Hsum : total_size ScoreStrategy.forward ScoreStrategy.shape0 batches
                 <= pool_size (self w)) by (vm_compute; discriminate).
  split; [split; [apply score_strategy_one_score_per_example|exact Hsum]|].
  exact (round_slots_are_reset_or_pool_pairs
           ScoreStrategy.forward ScoreStrategy.shape0 ScoreStrategy.objective
           batches w (score_strategy_one_score_per_example batches) Hsum).
Defined.









Lemma pool_step_self_indep {Batch Logits : Type}
    (forward : Batch -> Logits) (shape0 : Logits -> nat)
    (objective' : Logits -> outcome tensor) (b : Batch) (w w' : world) :
  self w = self w' ->
  ready w ->
  (pool_step forward shape0 objective' b w).2
  = (pool_step forward shape0 objective' b w').2 /\
  self (pool_step forward shape0 objective' b w).1
  = self (pool_step forward shape0 objective' b w').1.
Proof.
  intros Heq Hw.
  destruct (objective' (on_before_objective (forward b))) as [raw|e] eqn:Hraw.
  - destruct (ready_pairs w Hw) as (c & st & Hs & Hlen & _).
    assert (Hb : scorable forward objective' b) by (by exists raw).
    rewrite (pool_step_eq forward shape0 objective' b w _ _ c st Hs Hlen Hb).
    rewrite Heq in Hs, Hlen.
    rewrite (pool_step_eq forward shape0 objective' b w' _ _ c st Hs Hlen Hb).
    cbn zeta. rewrite Heq. by case_bool_decide.
  - unfold pool_step, bind.
    by rewrite !(test_step_raise forward shape0 objective' b _ e Hraw).
Qed.

Lemma pool_batches_self_indep {Batch Logits : Type}
    (forward : Batch -> Logits) (shape0 : Logits -> nat)
    (objective' : Logits -> outcome tensor) (bs : list Batch) (w w' : world) :
  self w = self w' ->
  ready w ->
  (pool_batches forward shape0 objective' bs w).2
  = (pool_batches forward shape0 objective' bs w').2 /\
  self (pool_batches forward shape0 objective' bs w).1
  = self (pool_batches forward shape0 objective' bs w').1.
Proof.
  revert w w'. induction bs as [|b bs IH]; intros w w' Heq Hw; [done|].
  simpl. unfold bind.
  destruct (pool_step_self_indep forward shape0 objective' b w w' Heq Hw) as [Ho Hs].
  destruct (pool_step_ready forward shape0 objective' b w Hw) as (Hw1 & _).
  destruct (pool_step forward shape0 objective' b w) as [w1 o1].
  destruct (pool_step forward shape0 objective' b w') as [w1' o1'].
  simpl in *. subst o1'. destruct o1 as [[]|e]; [|done].
  by apply IH.
Qed.

(** X10. A round forgets what came before it: on two strategies with the
    same query size and the same pool size, whatever their counters, values,
    indices and stores, a round over the same batches ends in the same way
    and leaves the same strategy state. *)
Theorem round_forgets_the_previous_state {Batch Logits : Type}
    (forward : Batch -> Logits) (shape0 : Logits -> nat)
    (objective' : Logits -> outcome tensor) (batches : list Batch) (w w' : world) :
  query_size (self w) = query_size (self w') ->
  pool_size (self w) = pool_size (self w') ->
  (pool_round forward shape0 objective' batches w).2
  = (pool_round forward shape0 objective' batches w').2 /\
  self (pool_round forward shape0 objective' batches w).1
  = self (pool_round forward shape0 objective' batches w').1.
Proof.
  intros Hq Hp. unfold pool_round, bind.
  pose proof (reset_ready w) as Hr. rewrite !reset_eq in *. simpl in Hr.
  apply pool_batches_self_indep; [|done].
  simpl. by rewrite Hq, Hp.
Qed.

Lemma round_forgets_the_previous_state_witness :
  let used := (ScoreStrategy.round 3 2 [[5; 8]; [9]]).1 in
  let batches := [[4; -7]; [6]] in
  (query_size (self used) = query_size (self (ScoreStrategy.fresh 3 2)) /\
   pool_size (self used) = pool_size (self (ScoreStrategy.fresh 3 2))) /\
  (pool_round ScoreStrategy.forward ScoreStrategy.shape0 ScoreStrategy.objective
     batches used).2
  = (ScoreStrategy.round 3 2 batches).2 /\
  self (pool_round ScoreStrategy.forward ScoreStrategy.shape0 ScoreStrategy.objective
          batches used).1
  = self (ScoreStrategy.round 3 2 batches).1.
Proof.
  intros used batches. split; [split; reflexivity|].
  exact (round_forgets_the_previous_state
           ScoreStrategy.forward ScoreStrategy.shape0 ScoreStrategy.objective
           batches used (ScoreStrategy.fresh 3 2) eq_refl eq_refl).
Defined.

(** X11. On a strategy that was connected but never reset, [_batch_to_pool]
    and with it [test_step_end] raise [TypeError] at the first statement:
    the counter is still [None], and neither the strategy nor any tensor of
    the store is changed. *)
Theorem test_step_end_before_reset_raises_type_error
    (pool : Z) (q : nat) (h : list (list Z)) (vb : list Z) (l : loc) (n : Z) :
  _batch_to_pool l n (World (connect pool q) h)
  = (World (connect pool q) h, Raise TypeError) /\
  test_step_end (vb, l, n) (World (connect pool q) h)
  = (World (connect pool q) h, Raise TypeError).
Proof. done. Qed.

Lemma snd_enumerate {A} (l : list A) : (enumerate l).*2 = seq 0 (length l).
Proof. unfold enumerate. apply snd_zip. by rewrite length_seq. Qed.

Lemma score_geb_StronglySorted {B} (l : list (Z * B)) :
  StronglySorted (Before score_geb) (sort_desc score_geb l).
Proof.
  apply Sorted_StronglySorted.
  - intros p q r. apply geb_trans.
  - apply sort_desc_Sorted, score_geb_total.
Qed.

(** X12. [optimize_objective] never raises and does not touch the state,
    also on an empty score tensor or one shorter than [query_size].  It
    returns [min (length scores) query_size] values in descending order and
    as many positions; the positions are distinct, each value is the score at
    its position, and no score left out is larger than a value returned. *)
Theorem optimize_objective_selects_the_largest (scores : list Z) (w : world) :
  exists vals idx,
    optimize_objective scores w = (w, Ok (vals, idx)) /\
    length vals = Nat.min (length scores) (query_size (self w)) /\
    length idx = Nat.min (length scores) (query_size (self w)) /\
    NoDup idx /\
    (forall j i, idx !! j = Some i ->
       exists v, vals !! j = Some v /\ scores !! i = Some v) /\
    (forall i j x y,
       (i <= j)%nat -> vals !! i = Some x -> vals !! j = Some y -> y <= x) /\
    (forall p x v, scores !! p = Some x -> p ∉ idx -> v ∈ vals -> x <= v).
Proof.
  rewrite optimize_objective_eq.
  set (k := Nat.min (length scores) (query_size (self w))).
  set (S := sort_desc score_geb (enumerate scores)).
  assert (Hsel : topk_select scores k = ((take k S).*1, (take k S).*2)) by done.
  exists (topk_select scores k).1, (topk_select scores k).2.
  split_and!.
  - by destruct (topk_select scores k).
  - rewrite topk_select_length_1. unfold k. lia.
  - rewrite topk_select_length_2. unfold k. lia.
  - rewrite Hsel. cbn [snd]. rewrite fmap_take.
    eapply sublist_NoDup; [|apply sublist_take].
    unfold S. rewrite (sort_desc_Permutation score_geb), snd_enumerate.
    apply NoDup_seq.
  - intros j i Hj.
    assert (Hlt : (j < length (topk_select scores k).1)%nat).
    { apply lookup_lt_Some in Hj.
      rewrite topk_select_length_1. by rewrite topk_select_length_2 in Hj. }
    apply lookup_lt_is_Some in Hlt as [v Hv]. exists v. split; [done|].
    by apply (topk_select_lookup scores k j).
  - intros i j x y Hij Hi Hj.
    destruct (decide (i = j)) as [->|Hne]; [rewrite Hi in Hj; injection Hj; lia|].
    rewrite topk_select_values in Hi, Hj.
    assert (Hs : StronglySorted (Before geb) (take k (sort_desc geb scores))).
    { apply Sorted_StronglySorted; [intros a b c; apply geb_trans|].
      apply Sorted_take_desc, sort_desc_Sorted, geb_total. }
    assert (Hxy : Before geb x y).
    { apply (StronglySorted_lookup_lt _ _ i j x y Hs); [lia|done..]. }
    unfold Before, geb in Hxy. lia.
  - intros p x v Hp Hnot Hv. rewrite Hsel in Hnot, Hv. cbn [fst snd] in Hnot, Hv.
    apply list_elem_of_fmap in Hv as ([v' i] & -> & Hv). simpl.
    assert (Hin : (x, p) ∈ S).
    { unfold S. rewrite (sort_desc_Permutation score_geb).
      by apply elem_of_enumerate. }
    rewrite <- (take_drop k S) in Hin. apply elem_of_app in Hin as [Hin|Hin].
    + exfalso. apply Hnot. apply list_elem_of_fmap. by exists (x, p).
    + pose proof (score_geb_StronglySorted (enumerate scores)) as Hs. fold S in Hs.
      rewrite <- (take_drop k S) in Hs.
      pose proof (StronglySorted_app_1_elem_of _ _ _ _ _ Hs Hv Hin) as Hb.
      unfold Before, score_geb, geb in Hb. simpl in Hb. lia.
Qed.



(** X15. When the acquisition function of a strategy raises on a batch,
    whatever the error, [test_step] raises that error before anything is
    selected or allocated: the strategy and the store are exactly as before,
    and the pool loop stops at that batch with the same error. *)
Theorem objective_error_stops_the_loop_unchanged {Batch Logits : Type}
    (forward : Batch -> Logits) (shape0 : Logits -> nat)
    (objective' : Logits -> outcome tensor)
    (b : Batch) (rest : list Batch) (w : world) (e : exn) :
  objective' (on_before_objective (forward b)) = Raise e ->
  test_step forward shape0 objective' b w = (w, Raise e) /\
  pool_step forward shape0 objective' b w = (w, Raise e) /\
  pool_batches forward shape0 objective' (b :: rest) w = (w, Raise e).
Proof.
  intros He.
  pose proof (test_step_raise forward shape0 objective' b w e He) as Ht.
  assert (Hp : pool_step forward shape0 objective' b w = (w, Raise e)).
  { unfold pool_step, bind. by rewrite Ht. }
  split_and!; [done..|]. simpl. unfold bind. by rewrite Hp.
Qed.

Lemma objective_error_stops_the_loop_unchanged_witness :
  let failing := fun l : list Z =>
    match l with [] => Raise IndexError | _ => Ok (vector l) end in
  let w := (ScoreStrategy.round 3 2 [[5; 8]]).1 in
  failing (on_before_objective (ScoreStrategy.forward [])) = Raise IndexError /\
  test_step ScoreStrategy.forward ScoreStrategy.shape0 failing [] w
  = (w, Raise IndexError) /\
  pool_step ScoreStrategy.forward ScoreStrategy.shape0 failing [] w
  = (w, Raise IndexError) /\
  pool_batches ScoreStrategy.forward ScoreStrategy.shape0 failing ([] :: [[4]]) w
  = (w, Raise IndexError).
Proof.
  intros failing w. split; [reflexivity|].
  exact (objective_error_stops_the_loop_unchanged
           ScoreStrategy.forward ScoreStrategy.shape0 failing [] [[4]] w IndexError
           eq_refl).
Defined.
